(** * The go-raft replicated log (log.go), embedded in Rocq

    The Go type [Log] becomes a record, every method a function on it.
    What the methods do to the outside (the log file, the state machine
    behind [ApplyFunc]) is threaded through an explicit [World].  Run-time
    panics of Go (index or slice bound out of range) are an outcome of
    their own, [Panic].  The mutex is not modelled: every method is read as
    one atomic step, which is what holding the lock for its whole duration
    gives.  The entries handed to the log are taken to be non-nil pointers
    and [ApplyFunc] to be set, so the nil dereferences Go would panic on
    have no counterpart. *)

From stdpp Require Import base numbers list strings.

Open Scope Z_scope.

(** ** uint64 arithmetic *)

Definition two64 : Z := 2 ^ 64.

(** The value of a uint64 expression: results wrap around modulo 2^64. *)
Definition u64 (z : Z) : Z := z mod two64.

Definition is_u64 (z : Z) : Prop := 0 <= z < two64.

(** ** Slices

    [s[i]]: Go checks the bound at run time; [None] stands for the
    "index out of range" panic. *)
Definition index_at {A : Type} (s : list A) (i : Z) : option A :=
  if (0 <=? i) && (i <? Z.of_nat (length s)) then s !! Z.to_nat i else None.

(** [s[i:]]: panics (here [None]) when [i > len(s)]. *)
Definition slice_from {A : Type} (s : list A) (i : Z) : option (list A) :=
  if (0 <=? i) && (i <=? Z.of_nat (length s)) then Some (drop (Z.to_nat i) s) else None.

(** [s[0:j]]: within [len(s)] this is the prefix of length [j].  Beyond
    [len(s)] Go looks at the capacity; the model has no capacity and
    reports the panic. *)
Definition slice_to {A : Type} (s : list A) (j : Z) : option (list A) :=
  if (0 <=? j) && (j <=? Z.of_nat (length s)) then Some (take (Z.to_nat j) s) else None.

(** [s[i] = x] *)
Definition store_at {A : Type} (s : list A) (i : Z) (x : A) : option (list A) :=
  if (0 <=? i) && (i <? Z.of_nat (length s)) then Some (<[Z.to_nat i := x]> s) else None.

(** Outcome of a method call: it returns, it panics, or the model ran out
    of the fuel it was given for a loop. *)
Inductive outcome (A : Type) : Type :=
  | Ret (a : A)
  | Panic
  | OutOfFuel.
Arguments Ret {A} a.
Arguments Panic {A}.
Arguments OutOfFuel {A}.

Section RaftLog.

(** What the log treats as opaque: the Command interface, the interface{}
    values the state machine returns, the error values made outside this
    file, an open *os.File, and everything outside the Log (the disk, the
    state machine). *)
Context {Command Value ExtErr Handle Ext : Type}.

(** ** Typedefs *)

Record LogEntry : Type := mkEntry {
  Index : Z;
  Term : Z;
  Cmd : option Command   (* the Command field; nil is None *)
}.

(** The results of the applying a log entry (logResult). *)
Record logResult : Type := mkResult {
  returnValue : option Value;
  err : option ExtErr
}.

Record Log : Type := mkLog {
  file : option Handle;
  path : string;
  entries : list LogEntry;
  results : list (option logResult);   (* []*logResult, nil is None *)
  commitIndex : Z;
  startIndex : Z;
  startTerm : Z
}.

(** The error values this file makes with errors.New and fmt.Errorf, one
    constructor per call site with the values it formats, and the errors
    handed through from outside. *)
Inductive error : Type :=
  | ErrCommitOutOfRange (index : Z) (len : nat)
  | ErrAlreadyCommitted (commit index term : Z)
  | ErrIndexDoesNotExist (max : nat) (index term : Z)
  | ErrTermMismatch (entryTerm index term : Z)
  | ErrNotOpen
  | ErrEarlierTerm (term index lastTerm lastIndex : Z)
  | ErrEarlierIndex (term index lastTerm lastIndex : Z)
  | ErrUnableToRecover (e : ExtErr)
  | ErrExternal (e : ExtErr).

(** Ghost record of what a method did, in program order. *)
Inductive Event : Type :=
  | EvEncode (e : LogEntry) (ok : bool)      (* entry.encode(file) and whether it succeeded *)
  | EvCommit (i : Z)                         (* l.commitIndex = i inside setCommitIndex *)
  | EvApply (c : option Command)             (* l.ApplyFunc(c) *)
  | EvStore (slot : Z) (r : logResult).      (* l.results[slot] = &r *)

Record World : Type := mkWorld {
  ext : Ext;
  events : list Event
}.

(** What one read of the log file yields to [open]: an entry and the
    number of bytes it took, or a decoding error. *)
Inductive decoded : Type :=
  | Decoded (e : LogEntry) (n : Z)
  | DecodeError (e : ExtErr).

(** ** The collaborators

    What [log.go] calls and does not define: [LogEntry.encode] of
    log_entry.go, the state machine behind [ApplyFunc], and package os.
    Each one acts on the outside state [Ext]. *)
Class Collaborators : Type := {
  (* entry.encode(w): the writer may be the nil file *)
  encode : LogEntry -> option Handle -> Ext -> Ext * option ExtErr;
  (* l.ApplyFunc(command) *)
  ApplyFunc : option Command -> Ext -> Ext * (option Value * option ExtErr);
  (* !os.IsNotExist(err) for the err of os.Stat(path) *)
  os_Stat_exists : string -> Ext -> bool;
  (* os.Open with the bufio reader on top: the successive results of
     Peek/decode on the file, the empty list being an immediate EOF *)
  os_Open : string -> Ext -> Ext * (Handle * list decoded + ExtErr);
  os_Truncate : string -> Z -> Ext -> Ext * option ExtErr;
  (* os.OpenFile(path, O_APPEND|O_CREATE|O_WRONLY, 0600) *)
  os_OpenFile : string -> Ext -> Ext * (Handle + ExtErr);
  (* file.Close(), its error dropped as in the source *)
  file_Close : option Handle -> Ext -> Ext;
  os_Remove : string -> Ext -> Ext * option ExtErr;
  os_Rename : string -> string -> Ext -> Ext * option ExtErr
}.

Context {collab : Collaborators}.

Definition log_event (w : World) (x : Ext) (evs : list Event) : World :=
  {| ext := x; events := events w ++ evs |}.

Definition set_ext (w : World) (x : Ext) : World :=
  {| ext := x; events := events w |}.

Definition len (l : Log) : Z := Z.of_nat (length (entries l)).

(** ** Constructor *)

(** newLog, log.go:44. *)
Definition newLog : Log :=
  {| file := None; path := ""; entries := []; results := [];
     commitIndex := 0; startIndex := 0; startTerm := 0 |}.

(** ** Accessors (log.go:61-123) *)

Definition CommitIndex (l : Log) : Z := commitIndex l.

Definition currentIndex (l : Log) : Z :=
  match last (entries l) with
  | None => startIndex l
  | Some e => Index e
  end.

Definition internalCurrentIndex (l : Log) : Z :=
  match last (entries l) with
  | None => startIndex l
  | Some e => Index e
  end.

Definition nextIndex (l : Log) : Z := u64 (currentIndex l + 1).

Definition isEmpty (l : Log) : bool :=
  (len l =? 0) && (startIndex l =? 0).

Definition currentTerm (l : Log) : Z :=
  match last (entries l) with
  | None => startTerm l
  | Some e => Term e
  end.

(** ** State *)

(** The [for] loop of [open], by recursion on what the reader yields.
    The third component is [Some] when [open] returns from inside the
    loop (the file could not be cut back after a decoding error). *)
Fixpoint open_loop (p : string) (h : Handle) (stream : list decoded)
    (l : Log) (w : World) (lastIndex : Z) : Log * World * option error :=
  match stream with
  | [] => (l, w, None)
  | DecodeError _ :: _ =>
      let x1 := file_Close (Some h) (ext w) in
      match os_Truncate p lastIndex x1 with
      | (x2, Some e) => (l, set_ext w x2, Some (ErrUnableToRecover e))
      | (x2, None) => (l, set_ext w x2, None)
      end
  | Decoded entry n :: rest =>
      let '(x1, (rv, er)) := ApplyFunc (Cmd entry) (ext w) in
      let l' := {| file := file l; path := path l;
                   entries := entries l ++ [entry];
                   results := results l ++ [Some (mkResult rv er)];
                   commitIndex := Index entry;
                   startIndex := startIndex l; startTerm := startTerm l |} in
      open_loop p h rest l' (log_event w x1 [EvApply (Cmd entry)]) (lastIndex + n)
  end.

(** The tail of [open]: open the file for appending. *)
Definition open_append (p : string) (l : Log) (w : World) : Log * World * option error :=
  match os_OpenFile p (ext w) with
  | (x, inr e) =>
      ({| file := None; path := path l; entries := entries l; results := results l;
          commitIndex := commitIndex l; startIndex := startIndex l;
          startTerm := startTerm l |}, set_ext w x, Some (ErrExternal e))
  | (x, inl f) =>
      ({| file := Some f; path := p; entries := entries l; results := results l;
          commitIndex := commitIndex l; startIndex := startIndex l;
          startTerm := startTerm l |}, set_ext w x, None)
  end.

(** open, log.go:137. *)
Definition open (l : Log) (w : World) (p : string) : Log * World * option error :=
  if os_Stat_exists p (ext w) then
    match os_Open p (ext w) with
    | (x, inr e) => (l, set_ext w x, Some (ErrExternal e))
    | (x, inl (h, stream)) =>
        match open_loop p h stream l (set_ext w x) 0 with
        | (l1, w1, Some e) =>
            (* return inside the loop; the deferred file.Close() runs *)
            (l1, set_ext w1 (file_Close (Some h) (ext w1)), Some e)
        | (l1, w1, None) =>
            let w2 := set_ext w1 (file_Close (Some h) (ext w1)) in
            let '(l3, w3, r) := open_append p l1 w2 in
            (l3, set_ext w3 (file_Close (Some h) (ext w3)), r)
        end
    end
  else open_append p l w.

(** close, log.go:194. *)
Definition close (l : Log) (w : World) : Log * World :=
  let w' := match file l with
            | Some h => set_ext w (file_Close (Some h) (ext w))
            | None => w
            end in
  ({| file := None; path := path l; entries := []; results := [];
      commitIndex := commitIndex l; startIndex := startIndex l;
      startTerm := startTerm l |}, w').

(** ** Entries *)

(** getEntry, log.go:217. *)
Definition getEntry (l : Log) (index : Z) : outcome (option LogEntry) :=
  if (index <=? startIndex l) || (index >? u64 (startIndex l + len l)) then Ret None
  else match index_at (entries l) (u64 (index - 1)) with
       | Some e => Ret (Some e)
       | None => Panic
       end.

(** containsEntry, log.go:228. *)
Definition containsEntry (l : Log) (index term : Z) : outcome bool :=
  match getEntry l index with
  | Ret (Some entry) => Ret (Term entry =? term)
  | Ret None => Ret false
  | Panic => Panic
  | OutOfFuel => OutOfFuel
  end.

(** getEntryResult, log.go:265.  The entry is never nil here, so the panic
    on a nil entry has no counterpart.  With [clear] the stored return
    value is dropped. *)
Definition getEntryResult (l : Log) (entry : LogEntry) (clear : bool)
    : outcome (Log * (option Value * option ExtErr)) :=
  if (0 <? Index entry) && (Index entry <=? Z.of_nat (length (results l))) then
    match index_at (results l) (u64 (Index entry - 1)) with
    | None => Panic
    | Some None => Ret (l, (None, None))
    | Some (Some result) =>
        let rs := if clear
                  then <[Z.to_nat (u64 (Index entry - 1)) := Some (mkResult None (err result))]> (results l)
                  else results l in
        Ret ({| file := file l; path := path l; entries := entries l; results := rs;
                commitIndex := commitIndex l; startIndex := startIndex l;
                startTerm := startTerm l |}, (returnValue result, err result))
    end
  else Ret (l, (None, None)).

(** ** Commit *)

(** updateCommitIndex, log.go:332. *)
Definition updateCommitIndex (l : Log) (index : Z) : Log :=
  {| file := file l; path := path l; entries := entries l; results := results l;
     commitIndex := index; startIndex := startIndex l; startTerm := startTerm l |}.

Definition with_commit (l : Log) (c : Z) (rs : list (option logResult)) : Log :=
  {| file := file l; path := path l; entries := entries l; results := rs;
     commitIndex := c; startIndex := startIndex l; startTerm := startTerm l |}.

(** The [for i := l.commitIndex + 1; i <= index; i++] loop of
    [setCommitIndex]; [fuel] bounds the number of times the loop
    condition is evaluated. *)
Fixpoint commit_loop (fuel : nat) (index i : Z) (l : Log) (w : World)
    : outcome (Log * World * option error) :=
  match fuel with
  | O => OutOfFuel
  | S fuel' =>
      if i <=? index then
        let entryIndex := u64 (i - 1 - startIndex l) in
        match index_at (entries l) entryIndex with
        | None => Panic
        | Some entry =>
            (* Write to storage. *)
            match encode entry (file l) (ext w) with
            | (x1, Some e) =>
                Ret (l, log_event w x1 [EvEncode entry false], Some (ErrExternal e))
            | (x1, None) =>
                (* Update commit index, then apply and store the result. *)
                let '(x2, (rv, er)) := ApplyFunc (Cmd entry) x1 in
                match store_at (results l) entryIndex (Some (mkResult rv er)) with
                | None => Panic
                | Some rs =>
                    commit_loop fuel' index (u64 (i + 1))
                      (with_commit l (Index entry) rs)
                      (log_event w x2 [EvEncode entry true; EvCommit (Index entry);
                                       EvApply (Cmd entry);
                                       EvStore entryIndex (mkResult rv er)])
                end
            end
        end
      else Ret (l, w, None)
  end.

(** setCommitIndex, log.go:339. *)
Definition setCommitIndex (fuel : nat) (l : Log) (w : World) (index : Z)
    : outcome (Log * World * option error) :=
  if index >? u64 (startIndex l + len l) then
    Ret (l, w, Some (ErrCommitOutOfRange index (length (entries l))))
  else if index <? commitIndex l then Ret (l, w, None)
  else commit_loop fuel index (u64 (commitIndex l + 1)) l w.

(** ** Truncation *)

Definition with_entries (l : Log) (es : list LogEntry) : Log :=
  {| file := file l; path := path l; entries := es; results := results l;
     commitIndex := commitIndex l; startIndex := startIndex l;
     startTerm := startTerm l |}.

(** truncate, log.go:392. *)
Definition truncate (l : Log) (index term : Z) : outcome (Log * option error) :=
  if index <? commitIndex l then
    Ret (l, Some (ErrAlreadyCommitted (commitIndex l) index term))
  else if index >? u64 (startIndex l + len l) then
    Ret (l, Some (ErrIndexDoesNotExist (length (entries l)) index term))
  else if index =? startIndex l then Ret (with_entries l [], None)
  else
    match index_at (entries l) (u64 (index - startIndex l - 1)) with
    | None => Panic
    | Some entry =>
        if (0 <? len l) && negb (Term entry =? term) then
          Ret (l, Some (ErrTermMismatch (Term entry) index term))
        else if index <? u64 (startIndex l + len l) then
          match slice_to (entries l) (u64 (index - startIndex l)) with
          | None => Panic
          | Some es => Ret (with_entries l es, None)
          end
        else Ret (l, None)
    end.

(** ** Append *)

(** appendEntry, log.go:453. *)
Definition appendEntry (l : Log) (entry : LogEntry) : Log * option error :=
  match file l with
  | None => (l, Some ErrNotOpen)
  | Some _ =>
      let refused :=
        match last (entries l) with
        | None => None
        | Some lastEntry =>
            if Term entry <? Term lastEntry then
              Some (ErrEarlierTerm (Term entry) (Index entry) (Term lastEntry) (Index lastEntry))
            else if (Term entry =? Term lastEntry) && (Index entry <=? Index lastEntry) then
              Some (ErrEarlierIndex (Term entry) (Index entry) (Term lastEntry) (Index lastEntry))
            else None
        end in
      match refused with
      | Some e => (l, Some e)
      | None =>
          ({| file := file l; path := path l; entries := entries l ++ [entry];
              results := results l ++ [None];
              commitIndex := commitIndex l; startIndex := startIndex l;
              startTerm := startTerm l |}, None)
      end
  end.

(** appendEntries, log.go:436. *)
Fixpoint appendEntries (l : Log) (es : list LogEntry) : Log * option error :=
  match es with
  | [] => (l, None)
  | entry :: rest =>
      match appendEntry l entry with
      | (l', Some e) => (l', Some e)
      | (l', None) => appendEntries l' rest
      end
  end.

(** ** Log compaction *)

(** [for _, entry := range entries { err = entry.encode(file) ... }] *)
Fixpoint encode_all (es : list LogEntry) (f : option Handle) (w : World)
    : World * option ExtErr :=
  match es with
  | [] => (w, None)
  | entry :: rest =>
      match encode entry f (ext w) with
      | (x, Some e) => (log_event w x [EvEncode entry false], Some e)
      | (x, None) => encode_all rest f (log_event w x [EvEncode entry true])
      end
  end.

(** compact, log.go:480. *)
Definition compact (l : Log) (w : World) (index term : Z)
    : outcome (Log * World * option error) :=
  let kept :=
    if index >=? internalCurrentIndex l then Some []
    else slice_from (entries l) (u64 (index - startIndex l)) in
  match kept with
  | None => Panic
  | Some es =>
      match os_OpenFile (path l +:+ ".new") (ext w) with
      | (x1, inr e) => Ret (l, set_ext w x1, Some (ErrExternal e))
      | (x1, inl f) =>
          match encode_all es (Some f) (set_ext w x1) with
          | (w2, Some e) => Ret (l, w2, Some (ErrExternal e))
          | (w2, None) =>
              let x3 := file_Close (file l) (ext w2) in
              match os_Remove (path l) x3 with
              | (x4, Some e) => Ret (l, set_ext w2 x4, Some (ErrExternal e))
              | (x4, None) =>
                  match os_Rename (path l +:+ ".new") (path l) x4 with
                  | (x5, Some e) => Ret (l, set_ext w2 x5, Some (ErrExternal e))
                  | (x5, None) =>
                      Ret ({| file := Some f; path := path l; entries := es;
                              results := results l; commitIndex := commitIndex l;
                              startIndex := index; startTerm := term |},
                           set_ext w2 x5, None)
                  end
              end
          end
      end
  end.

(** ** Vocabulary of the properties *)

(** The log after a successful [appendEntry]. *)
Definition appended (l : Log) (entry : LogEntry) : Log :=
  {| file := file l; path := path l; entries := entries l ++ [entry];
     results := results l ++ [None]; commitIndex := commitIndex l;
     startIndex := startIndex l; startTerm := startTerm l |}.

(** The in-memory entries carry the indices [i], [i+1], ... in order. *)
Fixpoint consecutive_from (i : Z) (es : list LogEntry) : bool :=
  match es with
  | [] => true
  | e :: rest => (Index e =? i) && consecutive_from (i + 1) rest
  end.

(** The window invariant of the data model. *)
Definition commit_window (l : Log) : Prop :=
  startIndex l <= commitIndex l <= startIndex l + len l.

(** [results] is parallel to [entries]: as long, and slot [k] is pending
    (nil) exactly as long as entry [k] lies beyond the commit index. *)
Definition results_parallel (l : Log) : Prop :=
  length (results l) = length (entries l) /\
  forall (k : nat) (e : LogEntry), entries l !! k = Some e ->
    (Index e <= commitIndex l -> exists r, results l !! k = Some (Some r)) /\
    (commitIndex l < Index e -> results l !! k = Some None).

(** A state the operations keep within: the baseline is a uint64, the
    commit index lies in the window, the entries are numbered from
    [startIndex + 1], no index reaches the largest uint64, and every entry
    has a result slot. *)
Record steady (l : Log) : Prop := mkSteady {
  steady_start : 0 <= startIndex l;
  steady_window : commit_window l;
  steady_numbered : consecutive_from (startIndex l + 1) (entries l) = true;
  steady_bound : startIndex l + len l < two64 - 1;
  steady_slots : (length (entries l) <= length (results l))%nat
}.

(** The entries at positions [commitIndex + 1 .. index]. *)
Definition pending (l : Log) (index : Z) : list LogEntry :=
  take (Z.to_nat (index - commitIndex l))
       (drop (Z.to_nat (commitIndex l - startIndex l)) (entries l)).

(** What committing the entries [es], in this order, asks of the outside:
    each entry is encoded and, if that worked, applied, before the next
    one is looked at.  Yields the results of the applied entries, the final
    outside state, and the entry whose encoding failed, if one did. *)
Fixpoint outside_run (f : option Handle) (es : list LogEntry) (x : Ext)
    : list logResult * Ext * option (LogEntry * ExtErr) :=
  match es with
  | [] => ([], x, None)
  | e :: rest =>
      match encode e f x with
      | (x1, Some er) => ([], x1, Some (e, er))
      | (x1, None) =>
          let '(x2, (rv, er)) := ApplyFunc (Cmd e) x1 in
          let '(rs, x', bad) := outside_run f rest x2 in
          (mkResult rv er :: rs, x', bad)
      end
  end.

(** The events of committing one entry held at offset [k]. *)
Definition entry_events (k : Z) (e : LogEntry) (r : logResult) : list Event :=
  [EvEncode e true; EvCommit (Index e); EvApply (Cmd e); EvStore k r].

(** The events of committing [es], held from offset [k] on, with results [rs]. *)
Fixpoint commit_trace (k : Z) (es : list LogEntry) (rs : list logResult) : list Event :=
  match es, rs with
  | e :: es', r :: rs' => entry_events k e r ++ commit_trace (k + 1) es' rs'
  | _, _ => []
  end.

Definition failure_events (bad : option (LogEntry * ExtErr)) : list Event :=
  match bad with
  | Some (e, _) => [EvEncode e false]
  | None => []
  end.

Definition failure_error (bad : option (LogEntry * ExtErr)) : option error :=
  match bad with
  | Some (_, er) => Some (ErrExternal er)
  | None => None
  end.

(** Index of the last entry of [es], or [c] when there is none. *)
Definition last_index (es : list LogEntry) (c : Z) : Z :=
  match last es with
  | Some e => Index e
  | None => c
  end.

(** [rs] with the slots from [off] on overwritten by [new]. *)
Definition overwrite {A : Type} (rs : list A) (off : nat) (new : list A) : list A :=
  take off rs ++ new ++ drop (off + length new) rs.

(** ** Sequences of calls *)

Inductive Op : Type :=
  | OpAppendEntries (es : list LogEntry)
  | OpSetCommitIndex (index : Z)
  | OpUpdateCommitIndex (index : Z)
  | OpTruncate (index term : Z)
  | OpCompact (index term : Z).

Definition run_op (fuel : nat) (o : Op) (l : Log) (w : World)
    : outcome (Log * World * option error) :=
  match o with
  | OpAppendEntries es => let '(l', e) := appendEntries l es in Ret (l', w, e)
  | OpSetCommitIndex index => setCommitIndex fuel l w index
  | OpUpdateCommitIndex index => Ret (updateCommitIndex l index, w, None)
  | OpTruncate index term =>
      match truncate l index term with
      | Ret (l', e) => Ret (l', w, e)
      | Panic => Panic
      | OutOfFuel => OutOfFuel
      end
  | OpCompact index term => compact l w index term
  end.

(** The calls one after the other; a caller goes on after an error. *)
Fixpoint run_ops (fuel : nat) (ops : list Op) (l : Log) (w : World)
    : outcome (Log * World) :=
  match ops with
  | [] => Ret (l, w)
  | o :: rest =>
      match run_op fuel o l w with
      | Ret (l', w', _) => run_ops fuel rest l' w'
      | Panic => Panic
      | OutOfFuel => OutOfFuel
      end
  end.

(** The calls that keep a steady log steady: appended entries continue the
    numbering, [updateCommitIndex] stays inside the window, compaction
    stays between the baseline and the commit index, and the loop of
    [setCommitIndex] has the fuel for its iterations. *)
Definition op_ok (fuel : nat) (l : Log) (o : Op) : Prop :=
  match o with
  | OpAppendEntries es =>
      consecutive_from (startIndex l + len l + 1) es = true /\
      startIndex l + len l + Z.of_nat (length es) < two64 - 1
  | OpSetCommitIndex index => (Z.to_nat (index - commitIndex l) < fuel)%nat
  | OpUpdateCommitIndex index => startIndex l <= index <= startIndex l + len l
  | OpTruncate index term => True
  | OpCompact index term => startIndex l <= index <= commitIndex l
  end.

Fixpoint ops_ok (fuel : nat) (ops : list Op) (l : Log) (w : World) : Prop :=
  match ops with
  | [] => True
  | o :: rest =>
      op_ok fuel l o /\
      match run_op fuel o l w with
      | Ret (l', w', _) => ops_ok fuel rest l' w'
      | _ => True
      end
  end.

(** ** The rest of the query surface *)

(** Modelled from the spec: newLogEntry of log_entry.go, which is not among
    the sources; section 4.3 has createEntry build "a new Entry stamped
    with nextIndex() and the given term", so it is taken to fill the three
    fields and nothing else the log reads. *)
Definition newLogEntry (index term : Z) (command : option Command) : LogEntry :=
  {| Index := index; Term := term; Cmd := command |}.

(** createEntry, log.go:211. *)
Definition createEntry (l : Log) (term : Z) (command : option Command) : LogEntry :=
  newLogEntry (nextIndex l) term command.

(** getEntriesAfter, log.go:236.  A nil slice is [None].  The call of
    traceln before the last return evaluates [l.entries[len(l.entries)-1]],
    which is kept for the panic it can raise. *)
Definition getEntriesAfter (l : Log) (index : Z) : outcome (option (list LogEntry) * Z) :=
  if index <? startIndex l then Ret (None, 0)
  else if index >? u64 (len l + startIndex l) then Panic
  else if index =? startIndex l then Ret (Some (entries l), startTerm l)
  else
    match index_at (entries l) (len l - 1) with
    | None => Panic
    | Some _ =>
        match slice_from (entries l) (u64 (index - startIndex l)),
              index_at (entries l) (u64 (index - 1 - startIndex l)) with
        | Some es, Some e => Ret (Some es, Term e)
        | _, _ => Panic
        end
    end.

(** commitInfo, log.go:297. *)
Definition commitInfo (l : Log) : outcome (Z * Z) :=
  if commitIndex l =? 0 then Ret (0, 0)
  else if commitIndex l =? startIndex l then Ret (startIndex l, startTerm l)
  else match index_at (entries l) (u64 (commitIndex l - 1 - startIndex l)) with
       | Some entry => Ret (Index entry, Term entry)
       | None => Panic
       end.

(** lastInfo, log.go:317. *)
Definition lastInfo (l : Log) : Z * Z :=
  match last (entries l) with
  | None => (startIndex l, startTerm l)
  | Some entry => (Index entry, Term entry)
  end.

(** ** Vocabulary of the further properties *)

(** [entry] may come after [prev]: its term is not smaller, and with the
    same term its index is greater. *)
Definition follows (prev : option LogEntry) (entry : LogEntry) : bool :=
  match prev with
  | None => true
  | Some p =>
      negb (Term entry <? Term p) &&
      negb ((Term entry =? Term p) && (Index entry <=? Index p))
  end.

(** Every entry of [es] may come after the one before it, the first one
    after [prev]. *)
Fixpoint chain (prev : option LogEntry) (es : list LogEntry) : bool :=
  match es with
  | [] => true
  | e :: rest => follows prev e && chain (Some e) rest
  end.

(** What [open] reads before the first decoding error, with the sizes. *)
Fixpoint decoded_prefix (stream : list decoded) : list (LogEntry * Z) :=
  match stream with
  | Decoded e n :: rest => (e, n) :: decoded_prefix rest
  | _ => []
  end.

(** The state machine applied to the commands of [es], in this order. *)
Fixpoint apply_run (es : list LogEntry) (x : Ext) : Ext * list logResult :=
  match es with
  | [] => (x, [])
  | e :: rest =>
      let '(x1, (rv, er)) := ApplyFunc (Cmd e) x in
      let '(x', rs) := apply_run rest x1 in
      (x', mkResult rv er :: rs)
  end.

(** Sum of the sizes, the offset the file is cut back to. *)
Definition bytes_read (good : list (LogEntry * Z)) : Z :=
  foldr (fun en acc => en.2 + acc) 0 good.

(** The states the methods lead to from a new log. *)
Inductive reachable : Log -> World -> Prop :=
  | reach_new w : reachable newLog w
  | reach_open l w p : reachable l w -> reachable (open l w p).1.1 (open l w p).1.2
  | reach_close l w : reachable l w -> reachable (close l w).1 (close l w).2
  | reach_op fuel o l w l' w' e :
      reachable l w -> run_op fuel o l w = Ret (l', w', e) -> reachable l' w'
  | reach_result l w entry clear l' r :
      reachable l w -> getEntryResult l entry clear = Ret (l', r) -> reachable l' w.

End RaftLog.

(** ** A small instance to run the model on

    Commands are numbers and the state machine adds them up, returning the
    running total.  The disk remembers the indices of the entries written
    to it and refuses to write beyond its capacity.  No log file exists
    before [open], and opening, closing, removing and renaming work. *)
Module Demo.

Record Disk : Type := mkDisk {
  written : list Z;
  capacity : nat;
  total : nat
}.

Definition toy_encode (e : @LogEntry nat) (f : option string) (x : Disk)
    : Disk * option string :=
  match f with
  | None => (x, Some "invalid argument")
  | Some _ =>
      if (length (written x) <? capacity x)%nat
      then ({| written := written x ++ [Index e]; capacity := capacity x;
               total := total x |}, None)
      else (x, Some "no space left on device")
  end.

Definition toy_apply (c : option nat) (x : Disk)
    : Disk * (option nat * option string) :=
  match c with
  | None => (x, (None, Some "no command"))
  | Some n =>
      ({| written := written x; capacity := capacity x; total := (total x + n)%nat |},
       (Some (total x + n)%nat, None))
  end.

#[global] Instance toy : @Collaborators nat nat string string Disk := {|
  encode := toy_encode;
  ApplyFunc := toy_apply;
  os_Stat_exists := fun _ _ => false;
  os_Open := fun _ x => (x, inr "no such file or directory");
  os_Truncate := fun _ _ x => (x, None);
  os_OpenFile := fun p x => (x, inl p);
  file_Close := fun _ x => x;
  os_Remove := fun _ x => (x, None);
  os_Rename := fun _ _ x => (x, None)
|}.

Definition ToyLog : Type := @Log nat nat string string.
Definition ToyWorld : Type := @World nat nat string Disk.

(** An empty disk of the given capacity and nothing recorded yet. *)
Definition world (cap : nat) : ToyWorld :=
  {| ext := {| written := []; capacity := cap; total := 0 |}; events := [] |}.

(** [newLog()] followed by [open("raft.log")]. *)
Definition opened : ToyLog := (open newLog (world 8) "raft.log").1.1.

Definition e1 : @LogEntry nat := mkEntry 1 1 (Some 10%nat).
Definition e2 : @LogEntry nat := mkEntry 2 1 (Some 20%nat).
Definition e3 : @LogEntry nat := mkEntry 3 2 (Some 30%nat).

(** The opened log after [appendEntries([e1, e2, e3])]. *)
Definition three : ToyLog := (appendEntries opened [e1; e2; e3]).1.

(** [three] after [compact(1, 1)]: the baseline is 1 and two entries stay. *)
Definition compacted1 : ToyLog :=
  {| file := Some "raft.log.new"; path := "raft.log"; entries := [e2; e3];
     results := [None; None; None]; commitIndex := 0; startIndex := 1;
     startTerm := 1 |}.

(** [three] after [compact(2, 1)], nothing committed yet: the baseline is
    above the commit index. *)
Definition compacted_ahead : ToyLog :=
  {| file := Some "raft.log.new"; path := "raft.log"; entries := [e3];
     results := [None; None; None]; commitIndex := 0; startIndex := 2;
     startTerm := 1 |}.

Definition r10 : @logResult nat string := mkResult (Some 10%nat) None.
Definition r30 : @logResult nat string := mkResult (Some 30%nat) None.
Definition r60 : @logResult nat string := mkResult (Some 60%nat) None.

(** [three] after [setCommitIndex(2)]. *)
Definition committed2 : ToyLog :=
  {| file := Some "raft.log"; path := "raft.log"; entries := [e1; e2; e3];
     results := [Some r10; Some r30; None]; commitIndex := 2; startIndex := 0;
     startTerm := 0 |}.

(** [committed2] after [compact(2, 1)]. *)
Definition committed2_compacted : ToyLog :=
  {| file := Some "raft.log.new"; path := "raft.log"; entries := [e3];
     results := [Some r10; Some r30; None]; commitIndex := 2; startIndex := 2;
     startTerm := 1 |}.

(** [committed2_compacted] after [setCommitIndex(3)]. *)
Definition committed3 : ToyLog :=
  {| file := Some "raft.log.new"; path := "raft.log"; entries := [e3];
     results := [Some r60; Some r30; None]; commitIndex := 3; startIndex := 2;
     startTerm := 1 |}.

(** [three] after [truncate(1, 1)]. *)
Definition truncated1 : ToyLog :=
  {| file := Some "raft.log"; path := "raft.log"; entries := [e1];
     results := [None; None; None]; commitIndex := 0; startIndex := 0;
     startTerm := 0 |}.

(** The outside after the given entries were written and applied. *)
Definition world_after (ws : list Z) (sum : nat) (evs : list (@Event nat nat string))
    : ToyWorld :=
  {| ext := {| written := ws; capacity := 8; total := sum |}; events := evs |}.

(** The opened log after appending entry 1 and then an entry of a later
    term that calls itself entry 7. *)
Definition e7 : @LogEntry nat := mkEntry 7 2 (Some 5%nat).
Definition gapped : ToyLog := (appendEntries opened [e1; e7]).1.

(** The opened log after [compact(2^64 - 2, 1)], [updateCommitIndex(2^64 - 2)]
    and the append of the entry with the largest index a uint64 can hold. *)
Definition e_last : @LogEntry nat := mkEntry (two64 - 1) 1 (Some 1%nat).
Definition at_the_edge : ToyLog :=
  {| file := Some "raft.log.new"; path := "raft.log"; entries := [e_last];
     results := [None]; commitIndex := two64 - 2; startIndex := two64 - 2;
     startTerm := 1 |}.

(** A mixed run of calls, each admissible where it is made. *)
Definition session : list (@Op nat) :=
  [OpAppendEntries [e1; e2; e3]; OpSetCommitIndex 2; OpCompact 1 1;
   OpUpdateCommitIndex 3; OpTruncate 3 2].


(** [committed2] after [getEntryResult(e2, true)]. *)
Definition cleared2 : ToyLog :=
  {| file := Some "raft.log"; path := "raft.log"; entries := [e1; e2; e3];
     results := [Some r10; Some (mkResult None None); None]; commitIndex := 2;
     startIndex := 0; startTerm := 0 |}.

(** [three] after [compact(3, 2)]: nothing is left in memory. *)
Definition compacted_all : ToyLog :=
  {| file := Some "raft.log.new"; path := "raft.log"; entries := [];
     results := [None; None; None]; commitIndex := 0; startIndex := 3;
     startTerm := 2 |}.

(** A log file holding entries 1 and 2 in 12 and 13 bytes, then bytes that
    do not decode. *)
Definition log_file : list (@decoded nat string) :=
  [Decoded e1 12; Decoded e2 13; DecodeError "unexpected EOF"; Decoded e3 9].

(** The instance with that log file on disk; cutting the file back works
    at the end of a record only.  It is handed over by name where it is
    meant. *)
Definition recovering : @Collaborators nat nat string string Disk := {|
  encode := toy_encode;
  ApplyFunc := toy_apply;
  os_Stat_exists := fun _ _ => true;
  os_Open := fun p x => (x, inl (p, log_file));
  os_Truncate := fun _ n x =>
    if (n =? 0) || (n =? 12) || (n =? 25) then (x, None)
    else (x, Some "invalid argument");
  os_OpenFile := fun p x => (x, inl p);
  file_Close := fun _ x => x;
  os_Remove := fun _ x => (x, None);
  os_Rename := fun _ _ x => (x, None)
|}.


(** The instance with the given reads on disk, where the file opens for
    appending only when [writable]; cutting the file back always works.
    Like [recovering] it is handed over by name. *)
Definition on_disk (stream : list (@decoded nat string)) (writable : bool)
    : @Collaborators nat nat string string Disk := {|
  encode := toy_encode;
  ApplyFunc := toy_apply;
  os_Stat_exists := fun _ _ => true;
  os_Open := fun p x => (x, inl (p, stream));
  os_Truncate := fun _ _ x => (x, None);
  os_OpenFile := fun p x => if writable then (x, inl p) else (x, inr "permission denied");
  file_Close := fun _ x => x;
  os_Remove := fun _ x => (x, None);
  os_Rename := fun _ _ x => (x, None)
|}.


(** A new log after [open] on the file a compaction up to 2 left behind,
    which holds entry 3 alone. *)
Definition reopened_after_compaction : ToyLog :=
  (open (collab := on_disk [Decoded e3 9] true) newLog (world 8) "raft.log").1.1.

(** The opened log after [compact(2^64 - 3, 1)] and
    [updateCommitIndex(2^64 - 3)], and the entry before the last index. *)
Definition near_the_edge : ToyLog :=
  {| file := Some "raft.log.new"; path := "raft.log"; entries := [];
     results := []; commitIndex := two64 - 3; startIndex := two64 - 3;
     startTerm := 1 |}.
Definition e_before_last : @LogEntry nat := mkEntry (two64 - 2) 1 (Some 1%nat).

End Demo.

(** * Properties *)

(** Side conditions on a concrete log: unfold down to numbers. *)
Ltac concrete :=
  unfold is_u64, two64, commit_window, len; simpl; first [lia | reflexivity].

(** ** uint64 and slices *)

Lemma u64_small (z : Z) : is_u64 z -> u64 z = z.
Proof. unfold is_u64, u64. intros Hz. apply Z.mod_small. exact Hz. Qed.

Lemma two64_pos : 0 < two64.
Proof. reflexivity. Qed.

Lemma index_at_lookup {A : Type} (s : list A) (k : nat) :
  (k < length s)%nat -> index_at s (Z.of_nat k) = s !! k.
Proof.
  intros Hk. unfold index_at.
  assert ((0 <=? Z.of_nat k) = true) as -> by (apply Z.leb_le; lia).
  assert ((Z.of_nat k <? Z.of_nat (length s)) = true) as -> by (apply Z.ltb_lt; lia).
  simpl. by rewrite Nat2Z.id.
Qed.

Lemma index_at_inside {A : Type} (s : list A) (i : Z) :
  0 <= i < Z.of_nat (length s) -> index_at s i = s !! Z.to_nat i.
Proof.
  intros Hi. rewrite <- (Z2Nat.id i) at 1 by lia. apply index_at_lookup. lia.
Qed.

Lemma index_at_beyond {A : Type} (s : list A) (i : Z) :
  Z.of_nat (length s) <= i -> index_at s i = None.
Proof.
  intros Hi. unfold index_at.
  assert ((i <? Z.of_nat (length s)) = false) as -> by (apply Z.ltb_ge; lia).
  by rewrite andb_false_r.
Qed.

Lemma store_at_insert {A : Type} (s : list A) (k : nat) (x : A) :
  (k < length s)%nat -> store_at s (Z.of_nat k) x = Some (<[k := x]> s).
Proof.
  intros Hk. unfold store_at.
  assert ((0 <=? Z.of_nat k) = true) as -> by (apply Z.leb_le; lia).
  assert ((Z.of_nat k <? Z.of_nat (length s)) = true) as -> by (apply Z.ltb_lt; lia).
  simpl. by rewrite Nat2Z.id.
Qed.

Lemma slice_from_drop {A : Type} (s : list A) (k : nat) :
  (k <= length s)%nat -> slice_from s (Z.of_nat k) = Some (drop k s).
Proof.
  intros Hk. unfold slice_from.
  assert ((0 <=? Z.of_nat k) = true) as -> by (apply Z.leb_le; lia).
  assert ((Z.of_nat k <=? Z.of_nat (length s)) = true) as -> by (apply Z.leb_le; lia).
  simpl. by rewrite Nat2Z.id.
Qed.

Lemma slice_to_take {A : Type} (s : list A) (k : nat) :
  (k <= length s)%nat -> slice_to s (Z.of_nat k) = Some (take k s).
Proof.
  intros Hk. unfold slice_to.
  assert ((0 <=? Z.of_nat k) = true) as -> by (apply Z.leb_le; lia).
  assert ((Z.of_nat k <=? Z.of_nat (length s)) = true) as -> by (apply Z.leb_le; lia).
  simpl. by rewrite Nat2Z.id.
Qed.

Section Facts.

Context {Command Value ExtErr Handle Ext : Type}.
Context {collab : @Collaborators Command Value ExtErr Handle Ext}.

Local Abbreviation Log := (@Log Command Value ExtErr Handle).
Local Abbreviation LogEntry := (@LogEntry Command).
Local Abbreviation World := (@World Command Value ExtErr Ext).
Local Abbreviation error := (@error ExtErr).

Implicit Types (l : Log) (w : World) (entry lastEntry : LogEntry).

(** ** Append *)

Lemma appendEntry_refuses l entry h lastEntry :
  file l = Some h -> last (entries l) = Some lastEntry ->
  Term entry < Term lastEntry \/
    (Term entry = Term lastEntry /\ Index entry <= Index lastEntry) ->
  exists e, appendEntry l entry = (l, Some e).
Proof.
  intros Hf Hl Hord. unfold appendEntry. rewrite Hf, Hl.
  destruct (Term entry <? Term lastEntry) eqn:Hlt; [eauto |].
  apply Z.ltb_ge in Hlt.
  destruct Hord as [Hord | [Heq Hidx]]; [lia |].
  assert ((Term entry =? Term lastEntry) = true) as -> by (apply Z.eqb_eq; lia).
  assert ((Index entry <=? Index lastEntry) = true) as -> by (apply Z.leb_le; lia).
  simpl. eauto.
Qed.

Lemma appendEntry_accepts l entry h lastEntry :
  file l = Some h -> last (entries l) = Some lastEntry ->
  (Term entry = Term lastEntry /\ Index lastEntry < Index entry) \/
    Term lastEntry < Term entry ->
  appendEntry l entry = (appended l entry, None).
Proof.
  intros Hf Hl Hord. unfold appendEntry, appended. rewrite Hf, Hl.
  assert ((Term entry <? Term lastEntry) = false) as -> by (apply Z.ltb_ge; lia).
  destruct Hord as [[Heq Hidx] | Hgt].
  - assert ((Index entry <=? Index lastEntry) = false) as -> by (apply Z.leb_gt; lia).
    by destruct (Term entry =? Term lastEntry).
  - assert ((Term entry =? Term lastEntry) = false) as -> by (apply Z.eqb_neq; lia).
    done.
Qed.

(** C7. On an open log whose last in-memory entry is [lastEntry],
    [appendEntry] returns an error and the log as it was when the new
    entry has a smaller term, or the same term and an index that is not
    greater; it appends the entry (with a nil result slot) and returns no
    error when the term is the same and the index greater, or the term is
    greater. *)
Theorem appendEntry_order l entry h lastEntry :
  file l = Some h -> last (entries l) = Some lastEntry ->
  (Term entry < Term lastEntry \/
     (Term entry = Term lastEntry /\ Index entry <= Index lastEntry) ->
   exists e, appendEntry l entry = (l, Some e)) /\
  ((Term entry = Term lastEntry /\ Index lastEntry < Index entry) \/
     Term lastEntry < Term entry ->
   appendEntry l entry = (appended l entry, None)).
Proof.
  intros Hf Hl. split; intros Hord.
  - eapply appendEntry_refuses; eauto.
  - eapply appendEntry_accepts; eauto.
Qed.

(** ** Close *)

(** C10. [close] empties [entries] and [results] and drops the file
    handle; the commit index and the baseline stay.  So afterwards
    [CommitIndex] answers as before, [currentIndex] is the old
    [startIndex], and [isEmpty] is false as soon as that baseline is
    positive. *)
Theorem close_keeps_commit_and_baseline l w :
  let l' := (close l w).1 in
  entries l' = [] /\ results l' = [] /\ file l' = None /\
  commitIndex l' = commitIndex l /\ startIndex l' = startIndex l /\
  startTerm l' = startTerm l /\
  CommitIndex l' = CommitIndex l /\
  currentIndex l' = startIndex l /\
  isEmpty l' = (startIndex l =? 0) /\
  (0 < startIndex l -> isEmpty l' = false).
Proof.
  cbn. repeat split.
  intros Hpos. unfold isEmpty. cbn. apply Z.eqb_neq. lia.
Qed.

(** ** Truncation *)

Lemma truncate_committed l index term :
  index < commitIndex l ->
  truncate l index term = Ret (l, Some (ErrAlreadyCommitted (commitIndex l) index term)).
Proof.
  intros Hlt. unfold truncate.
  by assert ((index <? commitIndex l) = true) as -> by (apply Z.ltb_lt; lia).
Qed.

Lemma truncate_mismatch l index term entry :
  is_u64 (startIndex l) -> is_u64 index ->
  startIndex l < index <= startIndex l + len l ->
  entries l !! Z.to_nat (index - startIndex l - 1) = Some entry ->
  Term entry <> term ->
  exists e, truncate l index term = Ret (l, Some e).
Proof.
  intros Hs Hi Hwin Hat Hne. unfold truncate.
  destruct (index <? commitIndex l); [eauto |].
  destruct (index >? u64 (startIndex l + len l)); [eauto |].
  assert ((index =? startIndex l) = false) as -> by (apply Z.eqb_neq; lia).
  unfold is_u64 in *. unfold len in *.
  rewrite u64_small by (unfold is_u64; lia).
  replace (index - startIndex l - 1) with (Z.of_nat (Z.to_nat (index - startIndex l - 1))) by lia.
  rewrite index_at_lookup by lia.
  rewrite Hat.
  assert ((0 <? Z.of_nat (length (entries l))) = true) as -> by (apply Z.ltb_lt; lia).
  assert ((Term entry =? term) = false) as -> by (apply Z.eqb_neq; lia).
  simpl. eauto.
Qed.

(** C8. [truncate(index, term)] returns an error and the log as it was
    when [index] is below the commit index, and also when [index] lies in
    the in-memory window and the entry held there has another term. *)
Theorem truncate_refuses l index term :
  is_u64 (startIndex l) -> is_u64 index ->
  (index < commitIndex l -> exists e, truncate l index term = Ret (l, Some e)) /\
  (forall entry,
     startIndex l < index <= startIndex l + len l ->
     entries l !! Z.to_nat (index - startIndex l - 1) = Some entry ->
     Term entry <> term ->
     exists e, truncate l index term = Ret (l, Some e)).
Proof.
  intros Hs Hi. split.
  - intros Hlt. rewrite truncate_committed by done. eauto.
  - intros entry Hwin Hat Hne. by eapply truncate_mismatch.
Qed.

(** ** Commit *)

(** C4 (amended).  For [i] below the commit index, [setCommitIndex(i)]
    first compares [i] with the end of the in-memory window, the uint64
    sum [startIndex + len(entries)].  Up to that end it returns no error
    and changes nothing: the log, the outside and the record of events
    are those before the call.  Beyond it, the call returns the
    out-of-range error, again changing nothing.  The first case is the
    only one when the commit index itself lies inside the window. *)
Theorem setCommitIndex_backward fuel l w i :
  i < commitIndex l ->
  (i <= u64 (startIndex l + len l) -> setCommitIndex fuel l w i = Ret (l, w, None)) /\
  (u64 (startIndex l + len l) < i ->
   setCommitIndex fuel l w i =
     Ret (l, w, Some (ErrCommitOutOfRange i (length (entries l))))) /\
  (is_u64 (startIndex l + len l) -> commitIndex l <= startIndex l + len l ->
   setCommitIndex fuel l w i = Ret (l, w, None)).
Proof.
  intros Hlt.
  assert (Hin : i <= u64 (startIndex l + len l) ->
                setCommitIndex fuel l w i = Ret (l, w, None)).
  { intros Hwin. unfold setCommitIndex.
    assert ((i >? u64 (startIndex l + len l)) = false) as ->
      by (rewrite Z.gtb_ltb; apply Z.ltb_ge; lia).
    by assert ((i <? commitIndex l) = true) as -> by (apply Z.ltb_lt; lia). }
  split; [exact Hin |]. split.
  - intros Hwin. unfold setCommitIndex.
    by assert ((i >? u64 (startIndex l + len l)) = true) as ->
      by (rewrite Z.gtb_ltb; apply Z.ltb_lt; lia).
  - intros Hu Hc. apply Hin. rewrite (u64_small _ Hu). lia.
Qed.

Lemma with_commit_same l : with_commit l (commitIndex l) (results l) = l.
Proof. by destruct l. Qed.

Lemma last_index_cons (e : LogEntry) (es : list LogEntry) (c : Z) :
  last_index (e :: es) c = last_index es (Index e).
Proof.
  unfold last_index. destruct es as [| e' es]; [reflexivity |].
  change (last (e :: e' :: es)) with (last (e' :: es)).
  destruct (last (e' :: es)) eqn:Hlast; [reflexivity |].
  by apply last_None in Hlast.
Qed.

Lemma overwrite_nil {A : Type} (rs : list A) (off : nat) : overwrite rs off [] = rs.
Proof. unfold overwrite. simpl. rewrite Nat.add_0_r. apply take_drop. Qed.

Lemma overwrite_insert {A : Type} (rs : list A) (off : nat) (x : A) (new : list A) :
  (off < length rs)%nat ->
  overwrite (<[off := x]> rs) (S off) new = overwrite rs off (x :: new).
Proof.
  intros Hoff. unfold overwrite.
  rewrite drop_insert_lt by lia.
  rewrite (take_S_r _ _ x) by (by apply list_lookup_insert_eq).
  rewrite take_insert_ge by lia.
  rewrite <- app_assoc. simpl.
  by replace (off + S (length new))%nat with (S (off + length new)) by lia.
Qed.

Lemma overwrite_length {A : Type} (rs : list A) (off : nat) (new : list A) :
  (off + length new <= length rs)%nat -> length (overwrite rs off new) = length rs.
Proof.
  intros Hle. unfold overwrite.
  rewrite !length_app, length_take, length_drop. lia.
Qed.

(** Without a failure every entry was committed; with one, exactly the
    entries before the failing entry were. *)
Lemma outside_run_length (f : option Handle) (es : list LogEntry) (x : Ext) :
  match outside_run f es x with
  | (rs, _, None) => length rs = length es
  | (rs, _, Some (e, _)) => es !! length rs = Some e
  end.
Proof.
  revert x. induction es as [| e es IH]; intros x; simpl; [done |].
  destruct (encode e f x) as [x1 [er |]]; [done |].
  destruct (ApplyFunc (Cmd e) x1) as [x2 [rv er]].
  specialize (IH x2). destruct (outside_run f es x2) as [[rs x'] [[b eb] |]]; simpl.
  - exact IH.
  - by rewrite IH.
Qed.

(** The loop of [setCommitIndex], started at the entry held at offset
    [off], with [es] the entries from there up to [index]. *)
Lemma commit_loop_run (es : list LogEntry) :
  forall (fuel off : nat) l w (index : Z),
    (length es < fuel)%nat ->
    0 <= startIndex l ->
    index = startIndex l + Z.of_nat off + Z.of_nat (length es) ->
    index < two64 - 1 ->
    (forall k e, es !! k = Some e -> entries l !! (off + k)%nat = Some e) ->
    (off + length es <= length (results l))%nat ->
    commit_loop fuel index (startIndex l + Z.of_nat off + 1) l w =
      let '(rs, x', bad) := outside_run (file l) es (ext w) in
      let done := take (length rs) es in
      Ret (with_commit l (last_index done (commitIndex l))
             (overwrite (results l) off (Some <$> rs)),
           {| ext := x';
              events := events w ++ commit_trace (Z.of_nat off) done rs
                          ++ failure_events bad |},
           failure_error bad).
Proof.
  induction es as [| e es IH]; intros fuel off l w index Hfuel Hs Hidx Hmax Hat Hslots;
    (destruct fuel as [| fuel]; [simpl in Hfuel; lia |]); simpl in *.
  - assert ((startIndex l + Z.of_nat off + 1 <=? index) = false) as ->
      by (apply Z.leb_gt; lia).
    rewrite overwrite_nil, with_commit_same, app_nil_r. by destruct w.
  - assert ((startIndex l + Z.of_nat off + 1 <=? index) = true) as ->
      by (apply Z.leb_le; lia).
    assert (Hoff : entries l !! off = Some e).
    { specialize (Hat O e eq_refl). by rewrite Nat.add_0_r in Hat. }
    pose proof (lookup_lt_Some _ _ _ Hoff) as Hlen.
    replace (startIndex l + Z.of_nat off + 1 - 1 - startIndex l) with (Z.of_nat off) by lia.
    rewrite u64_small by (unfold is_u64; lia).
    rewrite index_at_lookup, Hoff by done.
    destruct (encode e (file l) (ext w)) as [x1 [er |]].
    + simpl. rewrite overwrite_nil, with_commit_same. done.
    + destruct (ApplyFunc (Cmd e) x1) as [x2 [rv er]].
      rewrite store_at_insert by lia.
      rewrite (u64_small (startIndex l + Z.of_nat off + 1 + 1)) by (unfold is_u64; lia).
      set (l1 := with_commit l (Index e) _). set (w1 := log_event w x2 _).
      specialize (IH fuel (S off) l1 w1 index).
      replace (startIndex l1 + Z.of_nat (S off) + 1)
        with (startIndex l + Z.of_nat off + 1 + 1) in IH by (simpl; lia).
      rewrite IH; clear IH.
      * simpl. destruct (outside_run (file l) es x2) as [[rs x'] bad]. simpl.
        rewrite last_index_cons, overwrite_insert by lia.
        unfold l1, with_commit. simpl.
        rewrite <- !app_assoc. simpl.
        replace (Z.of_nat off + 1) with (Z.of_nat (S off)) by lia. done.
      * lia.
      * done.
      * simpl. lia.
      * done.
      * intros k e' Hk. simpl. replace (S (off + k)) with (off + S k)%nat by lia.
        by apply Hat.
      * simpl. rewrite length_insert. lia.
Qed.


Lemma pending_length l index :
  startIndex l <= commitIndex l -> commitIndex l <= index <= startIndex l + len l ->
  length (pending l index) = Z.to_nat (index - commitIndex l).
Proof.
  intros Hs Hwin. unfold pending, len in *.
  rewrite length_take, length_drop. lia.
Qed.

Lemma pending_lookup l index (k : nat) (e : LogEntry) :
  pending l index !! k = Some e ->
  entries l !! (Z.to_nat (commitIndex l - startIndex l) + k)%nat = Some e.
Proof.
  unfold pending. intros Hk.
  apply lookup_take_Some in Hk as [Hk _]. by rewrite lookup_drop in Hk.
Qed.

(** [setCommitIndex] at or above the commit index and inside the window,
    on a log whose commit index is not below the baseline. *)
Lemma setCommitIndex_run fuel l w index :
  0 <= startIndex l <= commitIndex l ->
  commitIndex l <= index <= startIndex l + len l ->
  startIndex l + len l < two64 - 1 ->
  (length (entries l) <= length (results l))%nat ->
  (Z.to_nat (index - commitIndex l) < fuel)%nat ->
  setCommitIndex fuel l w index =
    let '(rs, x', bad) := outside_run (file l) (pending l index) (ext w) in
    let done := take (length rs) (pending l index) in
    Ret (with_commit l (last_index done (commitIndex l))
           (overwrite (results l) (Z.to_nat (commitIndex l - startIndex l)) (Some <$> rs)),
         {| ext := x';
            events := events w ++ commit_trace (commitIndex l - startIndex l) done rs
                        ++ failure_events bad |},
         failure_error bad).
Proof.
  intros Hs Hwin Hmax Hslots Hfuel. unfold setCommitIndex.
  pose proof two64_pos as Hpos.
  rewrite !u64_small by (unfold is_u64, len in *; lia).
  assert ((index >? startIndex l + len l) = false) as ->
    by (rewrite Z.gtb_ltb; apply Z.ltb_ge; lia).
  assert ((index <? commitIndex l) = false) as -> by (apply Z.ltb_ge; lia).
  pose proof (pending_length l index) as Hlen.
  replace (commitIndex l + 1)
    with (startIndex l + Z.of_nat (Z.to_nat (commitIndex l - startIndex l)) + 1) by lia.
  rewrite (commit_loop_run (pending l index)).
  - by rewrite Z2Nat.id by lia.
  - lia.
  - lia.
  - lia.
  - unfold len in *. lia.
  - apply pending_lookup.
  - unfold len in *. lia.
Qed.

(** C3 (amended). On a log whose commit index [c] is not below the
    baseline, with a result slot for every entry and indices below the
    largest uint64, [setCommitIndex(index)] for [index] in
    [(c, startIndex + len(entries)]] goes through the entries at positions
    [c+1 .. index] in ascending order.  For each entry it encodes, then
    moves the commit index to the entry's index, then applies the command
    once and stores the returned pair in the entry's slot.  The first
    failing encode ends the loop and its error is returned; the commit
    index is then the index of the last entry encoded, or still [c] when
    there is none. *)
Theorem setCommitIndex_commits fuel l w index :
  0 <= startIndex l <= commitIndex l ->
  commitIndex l < index <= startIndex l + len l ->
  startIndex l + len l < two64 - 1 ->
  (length (entries l) <= length (results l))%nat ->
  (Z.to_nat (index - commitIndex l) < fuel)%nat ->
  let es := pending l index in
  let '(rs, x', bad) := outside_run (file l) es (ext w) in
  let done := take (length rs) es in
  setCommitIndex fuel l w index =
    Ret (with_commit l (last_index done (commitIndex l))
           (overwrite (results l) (Z.to_nat (commitIndex l - startIndex l)) (Some <$> rs)),
         {| ext := x';
            events := events w ++ commit_trace (commitIndex l - startIndex l) done rs
                        ++ failure_events bad |},
         failure_error bad) /\
  match bad with
  | None => done = es
  | Some (e, _) => es !! length rs = Some e
  end.
Proof.
  intros Hs Hwin Hmax Hslots Hfuel es.
  pose proof (setCommitIndex_run fuel l w index Hs) as Hrun.
  pose proof (outside_run_length (file l) es (ext w)) as Hlen.
  fold es in Hrun.
  destruct (outside_run (file l) es (ext w)) as [[rs x'] bad]. simpl.
  split.
  - apply Hrun; [lia | done..].
  - destruct bad as [[e er] |]; [done |].
    rewrite Hlen. apply firstn_all.
Qed.


(** ** Numbered entries *)

Lemma consecutive_lookup (es : list LogEntry) :
  forall (i : Z) (k : nat) (e : LogEntry),
    consecutive_from i es = true -> es !! k = Some e -> Index e = i + Z.of_nat k.
Proof.
  induction es as [| e0 es IH]; intros i k e Hc Hk; [done |].
  simpl in Hc. apply andb_prop in Hc as [Hhd Htl]. apply Z.eqb_eq in Hhd.
  destruct k as [| k]; simpl in Hk.
  - injection Hk as <-. lia.
  - rewrite (IH (i + 1) k e Htl Hk). lia.
Qed.

Lemma consecutive_app (a b : list LogEntry) :
  forall i : Z,
    consecutive_from i (a ++ b) =
    consecutive_from i a && consecutive_from (i + Z.of_nat (length a)) b.
Proof.
  induction a as [| e a IH]; intros i; simpl.
  - by rewrite Z.add_0_r.
  - rewrite IH, andb_assoc. do 2 f_equal. lia.
Qed.

Lemma consecutive_take (es : list LogEntry) (i : Z) (n : nat) :
  consecutive_from i es = true -> consecutive_from i (take n es) = true.
Proof.
  intros Hc. rewrite <- (take_drop n es), consecutive_app in Hc.
  by apply andb_prop in Hc as [Hc _].
Qed.

Lemma consecutive_drop (es : list LogEntry) (i : Z) (n : nat) :
  (n <= length es)%nat ->
  consecutive_from i es = true -> consecutive_from (i + Z.of_nat n) (drop n es) = true.
Proof.
  intros Hn Hc. rewrite <- (take_drop n es), consecutive_app in Hc.
  apply andb_prop in Hc as [_ Hc]. by rewrite length_take_le in Hc.
Qed.

Lemma last_index_numbered (es : list LogEntry) (c : Z) :
  consecutive_from (c + 1) es = true -> last_index es c = c + Z.of_nat (length es).
Proof.
  intros Hc. unfold last_index. rewrite last_lookup.
  destruct es as [| e es]; [simpl; lia |].
  destruct ((e :: es) !! pred (length (e :: es))) as [e' |] eqn:Hlast.
  - rewrite (consecutive_lookup _ _ _ _ Hc Hlast). simpl. lia.
  - apply lookup_ge_None in Hlast. simpl in Hlast. lia.
Qed.

Lemma internalCurrentIndex_numbered l :
  consecutive_from (startIndex l + 1) (entries l) = true ->
  internalCurrentIndex l = startIndex l + len l.
Proof.
  intros Hc. apply last_index_numbered in Hc. unfold last_index in Hc.
  unfold internalCurrentIndex, len. exact Hc.
Qed.

(** ** The window invariant, call by call *)

Lemma appendEntry_cases l entry :
  (exists e, appendEntry l entry = (l, Some e)) \/
  appendEntry l entry = (appended l entry, None).
Proof.
  unfold appendEntry, appended. destruct (file l); [| eauto].
  match goal with |- context [match ?r with Some _ => _ | None => _ end] =>
    destruct r end; eauto.
Qed.

Lemma steady_appended l entry :
  steady l -> Index entry = startIndex l + len l + 1 ->
  startIndex l + len l + 1 < two64 - 1 ->
  steady (appended l entry).
Proof.
  intros [Hs Hw Hn Hb Hr] Hidx Hmax.
  unfold commit_window, len in *.
  split; unfold commit_window, len; simpl; rewrite ?length_app; simpl; try lia.
  rewrite consecutive_app, Hn. simpl.
  rewrite andb_true_r. apply Z.eqb_eq. lia.
Qed.

Lemma steady_appendEntries (es : list LogEntry) :
  forall l,
    steady l -> consecutive_from (startIndex l + len l + 1) es = true ->
    startIndex l + len l + Z.of_nat (length es) < two64 - 1 ->
    steady (appendEntries l es).1.
Proof.
  induction es as [| e es IH]; intros l Hst Hc Hmax; [done |].
  simpl in Hc, Hmax. apply andb_prop in Hc as [Hhd Htl]. apply Z.eqb_eq in Hhd.
  simpl. destruct (appendEntry_cases l e) as [[err ->] | ->]; [done |].
  assert (Hlen : len (appended l e) = len l + 1).
  { unfold len. simpl. rewrite length_app. simpl. lia. }
  apply IH.
  - apply steady_appended; [done | done | lia].
  - simpl. rewrite Hlen. by replace (startIndex l + (len l + 1) + 1)
      with (startIndex l + len l + 1 + 1) by lia.
  - simpl. rewrite Hlen. lia.
Qed.

Lemma steady_updateCommitIndex l index :
  steady l -> startIndex l <= index <= startIndex l + len l ->
  steady (updateCommitIndex l index).
Proof. intros [Hs Hw Hn Hb Hr] Hin. by split. Qed.

Lemma steady_truncate l index term :
  steady l ->
  exists l' e, truncate l index term = Ret (l', e) /\ steady l'.
Proof.
  intros Hst. pose proof Hst as [Hs Hw Hn Hb Hr].
  unfold commit_window, len in *. unfold truncate.
  destruct (index <? commitIndex l) eqn:Hc; [eauto |]. apply Z.ltb_ge in Hc.
  rewrite (u64_small (startIndex l + len l)) by (unfold is_u64, len; lia).
  destruct (index >? startIndex l + len l) eqn:Hend; [eauto |].
  rewrite Z.gtb_ltb in Hend. apply Z.ltb_ge in Hend. unfold len in Hend.
  destruct (index =? startIndex l) eqn:Hstart.
  - apply Z.eqb_eq in Hstart. eexists _, _. split; [done |].
    split; unfold commit_window, len; simpl; lia.
  - apply Z.eqb_neq in Hstart.
    rewrite u64_small by (unfold is_u64; lia).
    replace (index - startIndex l - 1)
      with (Z.of_nat (Z.to_nat (index - startIndex l - 1))) by lia.
    rewrite index_at_lookup by lia.
    destruct (entries l !! Z.to_nat (index - startIndex l - 1)) as [entry |] eqn:Hat;
      [| apply lookup_ge_None in Hat; lia].
    destruct ((0 <? len l) && negb (Term entry =? term)); [eauto |].
    destruct (index <? startIndex l + len l); [| eauto].
    rewrite u64_small by (unfold is_u64; lia).
    replace (index - startIndex l) with (Z.of_nat (Z.to_nat (index - startIndex l))) by lia.
    rewrite slice_to_take by lia.
    eexists _, _. split; [done |].
    split; unfold commit_window, len; simpl; rewrite ?length_take; try lia.
    by apply consecutive_take.
Qed.

Lemma steady_setCommitIndex fuel l w index :
  steady l -> (Z.to_nat (index - commitIndex l) < fuel)%nat ->
  exists l' w' e, setCommitIndex fuel l w index = Ret (l', w', e) /\ steady l'.
Proof.
  intros Hst Hfuel. pose proof Hst as [Hs Hw Hn Hb Hr].
  unfold commit_window in Hw.
  destruct (Z.ltb_spec (startIndex l + len l) index) as [Hout | Hin].
  { unfold setCommitIndex.
    rewrite u64_small by (unfold is_u64, len in *; lia).
    assert ((index >? startIndex l + len l) = true) as ->
      by (rewrite Z.gtb_ltb; apply Z.ltb_lt; lia).
    eauto. }
  destruct (Z.ltb_spec index (commitIndex l)) as [Hback | Hfwd].
  { unfold setCommitIndex.
    rewrite u64_small by (unfold is_u64, len in *; lia).
    assert ((index >? startIndex l + len l) = false) as ->
      by (rewrite Z.gtb_ltb; apply Z.ltb_ge; lia).
    assert ((index <? commitIndex l) = true) as -> by (apply Z.ltb_lt; lia).
    eauto. }
  rewrite setCommitIndex_run by (done || lia).
  pose proof (outside_run_length (file l) (pending l index) (ext w)) as Hlen.
  pose proof (pending_length l index ltac:(lia) ltac:(lia)) as Hpl.
  destruct (outside_run (file l) (pending l index) (ext w)) as [[rs x'] bad].
  simpl. eexists _, _, _. split; [done |].
  assert (Hrs : (length rs <= length (pending l index))%nat).
  { destruct bad as [[e er] |]; [| lia].
    apply lookup_lt_Some in Hlen. lia. }
  assert (Hnum : consecutive_from (commitIndex l + 1)
                   (take (length rs) (pending l index)) = true).
  { apply consecutive_take. unfold pending. apply consecutive_take.
    replace (commitIndex l + 1)
      with (startIndex l + 1 + Z.of_nat (Z.to_nat (commitIndex l - startIndex l))) by lia.
    apply consecutive_drop; [unfold len in *; lia | done]. }
  apply last_index_numbered in Hnum. rewrite length_take_le in Hnum by done.
  unfold len in *.
  split; unfold commit_window, len; simpl; try done.
  - lia.
  - rewrite overwrite_length; [done |]. rewrite length_fmap. lia.
Qed.

Lemma steady_compact l w index term :
  steady l -> startIndex l <= index <= commitIndex l ->
  exists l' w' e, compact l w index term = Ret (l', w', e) /\ steady l'.
Proof.
  intros Hst Hin. pose proof Hst as [Hs Hw Hn Hb Hr].
  unfold commit_window in Hw. unfold compact.
  rewrite (internalCurrentIndex_numbered l Hn).
  assert (Hkept : exists es,
    (if index >=? startIndex l + len l then Some []
     else slice_from (entries l) (u64 (index - startIndex l))) = Some es /\
    consecutive_from (index + 1) es = true /\
    index + Z.of_nat (length es) <= startIndex l + len l /\
    commitIndex l <= index + Z.of_nat (length es)).
  { destruct (index >=? startIndex l + len l) eqn:Hall.
    - rewrite Z.geb_leb in Hall. apply Z.leb_le in Hall.
      exists []. simpl. repeat split; lia.
    - rewrite Z.geb_leb in Hall. apply Z.leb_gt in Hall.
      rewrite u64_small by (unfold is_u64; lia).
      replace (index - startIndex l)
        with (Z.of_nat (Z.to_nat (index - startIndex l))) by lia.
      unfold len in *. rewrite slice_from_drop by lia.
      eexists. split; [done |]. rewrite length_drop. repeat split; try lia.
      replace (index + 1)
        with (startIndex l + 1 + Z.of_nat (Z.to_nat (index - startIndex l))) by lia.
      apply consecutive_drop; [lia | done]. }
  destruct Hkept as (es & -> & Hnum & Hle & Hge).
  destruct (os_OpenFile (path l +:+ ".new") (ext w)) as [x1 [f | e1]]; [| eauto].
  destruct (encode_all es (Some f) (set_ext w x1)) as [w2 [e2 |]]; [eauto |].
  destruct (os_Remove (path l) (file_Close (file l) (ext w2))) as [x4 [e4 |]]; [eauto |].
  destruct (os_Rename (path l +:+ ".new") (path l) x4) as [x5 [e5 |]]; [eauto |].
  eexists _, _, _. split; [done |].
  unfold len in *.
  split; unfold commit_window, len; simpl; try done; lia.
Qed.

(** One admissible call returns and keeps the log steady. *)
Lemma steady_step fuel (o : Op) l w :
  steady l -> op_ok fuel l o ->
  exists l' w' e, run_op fuel o l w = Ret (l', w', e) /\ steady l'.
Proof.
  intros Hst Hok. destruct o as [es | index | index | index term | index term]; simpl in *.
  - destruct Hok as [Hnum Hmax].
    pose proof (steady_appendEntries es l Hst Hnum Hmax) as Hst'.
    destruct (appendEntries l es) as [l' e]. eauto.
  - by apply steady_setCommitIndex.
  - eexists _, _, _. split; [done |]. by apply steady_updateCommitIndex.
  - destruct (steady_truncate l index term Hst) as (l' & e & -> & Hst'). eauto.
  - by apply steady_compact.
Qed.

(** C6 (amended). From a steady log (commit index inside the window,
    entries numbered from [startIndex + 1], a result slot per entry, no
    index at the largest uint64), every sequence of [appendEntries],
    [setCommitIndex], [updateCommitIndex], [truncate] and [compact] calls
    returns and leaves [startIndex <= commitIndex <= startIndex +
    len(entries)] in force, provided each call is admissible where it is
    made: an appended batch continues the numbering and, taken in full,
    leaves the indices below the largest uint64, [updateCommitIndex]
    stays inside the window, and [compact] does not go beyond the commit
    index nor below the baseline.  [open] and [close] are not among these
    calls. *)
Theorem commit_window_preserved fuel (ops : list Op) :
  forall l w,
    steady l -> ops_ok fuel ops l w ->
    exists l' w', run_ops fuel ops l w = Ret (l', w') /\ steady l' /\ commit_window l'.
Proof.
  induction ops as [| o ops IH]; intros l w Hst Hok; simpl in *.
  - eexists _, _. split; [done |]. split; [done |]. by destruct Hst.
  - destruct Hok as [Ho Hrest].
    destruct (steady_step fuel o l w Hst Ho) as (l1 & w1 & e & Hrun & Hst1).
    rewrite Hrun in Hrest |- *. by apply IH.
Qed.


(** ** Entries *)

(** Outside the window [getEntry] answers nil. *)
Lemma getEntry_outside l index :
  is_u64 (startIndex l + len l) ->
  index <= startIndex l \/ startIndex l + len l < index ->
  getEntry l index = Ret None.
Proof.
  intros Hu Hout. unfold getEntry. rewrite (u64_small _ Hu).
  destruct Hout as [Hlow | Hhigh].
  - by assert ((index <=? startIndex l) = true) as -> by (apply Z.leb_le; lia).
  - assert ((index >? startIndex l + len l) = true) as ->
      by (rewrite Z.gtb_ltb; apply Z.ltb_lt; lia).
    by rewrite orb_true_r.
Qed.

(** Inside the window it reads offset [index - 1], whatever the baseline. *)
Lemma getEntry_inside l index :
  0 <= startIndex l -> is_u64 (startIndex l + len l) ->
  startIndex l < index <= startIndex l + len l ->
  getEntry l index =
    match index_at (entries l) (index - 1) with
    | Some e => Ret (Some e)
    | None => Panic
    end.
Proof.
  intros Hs Hu Hin. unfold getEntry. rewrite (u64_small _ Hu).
  assert ((index <=? startIndex l) = false) as -> by (apply Z.leb_gt; lia).
  assert ((index >? startIndex l + len l) = false) as ->
    by (rewrite Z.gtb_ltb; apply Z.ltb_ge; lia).
  simpl. rewrite u64_small; [done |]. unfold is_u64 in *. lia.
Qed.

(** Without a baseline that offset is the right one. *)
Lemma getEntry_no_baseline l index :
  startIndex l = 0 -> is_u64 (len l) -> 0 < index <= len l ->
  exists e, entries l !! Z.to_nat (index - startIndex l - 1) = Some e /\
            getEntry l index = Ret (Some e).
Proof.
  intros Hs Hu Hin.
  rewrite getEntry_inside by (rewrite ?Hs; (done || lia)).
  rewrite Hs. replace (index - 0 - 1) with (index - 1) by lia.
  unfold len in *. rewrite index_at_inside by lia.
  destruct (entries l !! Z.to_nat (index - 1)) as [e |] eqn:Hat; [eauto |].
  apply lookup_ge_None in Hat. lia.
Qed.

(** With a positive baseline, on numbered entries, it never finds the
    entry that belongs to the index. *)
Lemma getEntry_behind_baseline l index (e : LogEntry) :
  0 < startIndex l -> consecutive_from (startIndex l + 1) (entries l) = true ->
  is_u64 (startIndex l + len l) ->
  startIndex l < index <= startIndex l + len l ->
  entries l !! Z.to_nat (index - startIndex l - 1) = Some e ->
  getEntry l index <> Ret (Some e).
Proof.
  intros Hs Hn Hu Hin He.
  rewrite getEntry_inside by (done || lia).
  unfold index_at.
  destruct ((0 <=? index - 1) && (index - 1 <? Z.of_nat (length (entries l))));
    [| done].
  destruct (entries l !! Z.to_nat (index - 1)) as [e' |] eqn:He'; [| done].
  intros [= ->].
  pose proof (consecutive_lookup _ _ _ _ Hn He) as H1.
  pose proof (consecutive_lookup _ _ _ _ Hn He') as H2. lia.
Qed.

(** ** Log compaction *)

(** What a successful [compact] does to the in-memory log: the baseline
    moves to [index], and the entries after [index] stay, each at the
    offset its position has under the new baseline. *)
Lemma compact_keeps_later_entries l w index term l' w' :
  consecutive_from (startIndex l + 1) (entries l) = true ->
  0 <= startIndex l <= index -> startIndex l + len l < two64 ->
  compact l w index term = Ret (l', w', None) ->
  startIndex l' = index /\ startTerm l' = term /\
  results l' = results l /\ commitIndex l' = commitIndex l /\
  forall i, index < i ->
    entries l' !! Z.to_nat (i - index - 1) = entries l !! Z.to_nat (i - startIndex l - 1).
Proof.
  intros Hn Hs Hmax. unfold compact.
  rewrite (internalCurrentIndex_numbered l Hn).
  destruct (index >=? startIndex l + len l) eqn:Hall.
  - rewrite Z.geb_leb in Hall. apply Z.leb_le in Hall.
    destruct (os_OpenFile (path l +:+ ".new") (ext w)) as [x1 [f | e1]]; [| done].
    destruct (encode_all [] (Some f) (set_ext w x1)) as [w2 [e2 |]]; [done |].
    destruct (os_Remove (path l) (file_Close (file l) (ext w2))) as [x4 [e4 |]]; [done |].
    destruct (os_Rename (path l +:+ ".new") (path l) x4) as [x5 [e5 |]]; [done |].
    intros [= <- _]. simpl. repeat split. intros i Hi.
    symmetry. apply lookup_ge_None. unfold len in *. lia.
  - rewrite Z.geb_leb in Hall. apply Z.leb_gt in Hall.
    rewrite u64_small by (unfold is_u64; lia).
    replace (index - startIndex l)
      with (Z.of_nat (Z.to_nat (index - startIndex l))) by lia.
    unfold len in *. rewrite slice_from_drop by lia.
    destruct (os_OpenFile (path l +:+ ".new") (ext w)) as [x1 [f | e1]]; [| done].
    destruct (encode_all _ (Some f) (set_ext w x1)) as [w2 [e2 |]]; [done |].
    destruct (os_Remove (path l) (file_Close (file l) (ext w2))) as [x4 [e4 |]]; [done |].
    destruct (os_Rename (path l +:+ ".new") (path l) x4) as [x5 [e5 |]]; [done |].
    intros [= <- _]. simpl. repeat split. intros i Hi.
    rewrite lookup_drop. f_equal. lia.
Qed.


(** ** The length of [results]

    [appendEntries], [setCommitIndex], [open] and [close] change
    [entries] and [results] by the same number of slots. *)

Lemma appendEntries_lengths (es : list LogEntry) :
  forall l,
    (length (results (appendEntries l es).1) + length (entries l) =
     length (entries (appendEntries l es).1) + length (results l))%nat.
Proof.
  induction es as [| e es IH]; intros l; simpl; [lia |].
  destruct (appendEntry_cases l e) as [[err ->] | ->]; simpl; [lia |].
  specialize (IH (appended l e)). simpl in IH. rewrite !length_app in IH. simpl in IH. lia.
Qed.

Lemma commit_loop_lengths (fuel : nat) :
  forall (index i : Z) l w l' w' (e : option error),
    commit_loop fuel index i l w = Ret (l', w', e) ->
    entries l' = entries l /\ length (results l') = length (results l).
Proof.
  induction fuel as [| fuel IH]; intros index i l w l' w' e; simpl; [done |].
  destruct (i <=? index); [| by intros [= <- _ _]].
  destruct (index_at (entries l) (u64 (i - 1 - startIndex l))) as [entry |]; [| done].
  destruct (encode entry (file l) (ext w)) as [x1 [er |]]; [by intros [= <- _ _] |].
  destruct (ApplyFunc (Cmd entry) x1) as [x2 [rv er]].
  destruct (store_at (results l) _ _) as [rs |] eqn:Hstore; [| done].
  intros Hrun. apply IH in Hrun as [-> ->]. simpl. split; [done |].
  unfold store_at in Hstore.
  destruct ((0 <=? _) && _); [| done]. injection Hstore as <-. apply length_insert.
Qed.

Lemma setCommitIndex_lengths fuel l w index l' w' (e : option error) :
  setCommitIndex fuel l w index = Ret (l', w', e) ->
  entries l' = entries l /\ length (results l') = length (results l).
Proof.
  unfold setCommitIndex.
  destruct (index >? _); [by intros [= <- _ _] |].
  destruct (index <? _); [by intros [= <- _ _] |].
  apply commit_loop_lengths.
Qed.

Lemma open_loop_lengths (p : string) (h : Handle) (stream : list decoded) :
  forall l w (n : Z),
    (length (results (open_loop p h stream l w n).1.1) + length (entries l) =
     length (entries (open_loop p h stream l w n).1.1) + length (results l))%nat.
Proof.
  induction stream as [| [entry k | er] stream IH]; intros l w n; simpl; [lia | |].
  - destruct (ApplyFunc (Cmd entry) (ext w)) as [x1 [rv er]].
    match goal with |- context [open_loop p h stream ?l1 ?w1 ?n1] =>
      specialize (IH l1 w1 n1) end.
    simpl in IH. rewrite !length_app in IH. simpl in IH. lia.
  - destruct (os_Truncate p n _) as [x2 [e |]]; simpl; lia.
Qed.

Lemma open_lengths l w (p : string) :
  (length (results (open l w p).1.1) + length (entries l) =
   length (entries (open l w p).1.1) + length (results l))%nat.
Proof.
  assert (Happ : forall l0 w0,
            entries (open_append p l0 w0).1.1 = entries l0 /\
            results (open_append p l0 w0).1.1 = results l0).
  { intros l0 w0. unfold open_append.
    by destruct (os_OpenFile p (ext w0)) as [x [f | e]]. }
  unfold open. destruct (os_Stat_exists p (ext w)).
  - destruct (os_Open p (ext w)) as [x [[h stream] | e]]; simpl; [| lia].
    pose proof (open_loop_lengths p h stream l (set_ext w x) 0) as Hloop.
    destruct (open_loop p h stream l (set_ext w x) 0) as [[l1 w1] [e |]]; simpl in *;
      [lia |].
    match goal with |- context [open_append p l1 ?w2] =>
      destruct (Happ l1 w2) as [He Hr]; destruct (open_append p l1 w2) as [[l3 w3] r] end.
    simpl in *. rewrite He, Hr. lia.
  - destruct (Happ l w) as [-> ->]. lia.
Qed.

Lemma close_lengths l w :
  length (results (close l w).1) = length (entries (close l w).1).
Proof. reflexivity. Qed.

(** Every call of a sequence keeps a result slot for every entry. *)
Lemma slots_kept fuel (o : Op) l w l' w' (e : option error) :
  run_op fuel o l w = Ret (l', w', e) ->
  (length (entries l) <= length (results l))%nat ->
  (length (entries l') <= length (results l'))%nat.
Proof.
  destruct o as [es | index | index | index term | index term]; simpl.
  - pose proof (appendEntries_lengths es l) as Hlen.
    destruct (appendEntries l es) as [l1 e1]. intros [= <- _ _]. simpl in Hlen. lia.
  - intros Hrun Hle. apply setCommitIndex_lengths in Hrun as [-> ->]. lia.
  - intros [= <- _ _]. done.
  - unfold truncate.
    destruct (index <? _); [by intros [= <- _ _] |].
    destruct (index >? _); [by intros [= <- _ _] |].
    destruct (index =? _); [intros [= <- _ _]; simpl; lia |].
    destruct (index_at _ _) as [entry |]; [| done].
    destruct (_ && _); [by intros [= <- _ _] |].
    destruct (index <? _); [| by intros [= <- _ _]].
    unfold slice_to. destruct (_ && _); [| done].
    intros [= <- _ _]. simpl. rewrite length_take. lia.
  - unfold compact.
    assert (Hkept : forall es,
              (if index >=? internalCurrentIndex l then Some []
               else slice_from (entries l) (u64 (index - startIndex l))) = Some es ->
              (length es <= length (entries l))%nat).
    { intros es. destruct (index >=? _); [intros [= <-]; simpl; lia |].
      unfold slice_from. destruct (_ && _); [| done].
      intros [= <-]. rewrite length_drop. lia. }
    destruct (if index >=? _ then _ else _) as [es |]; [| done].
    specialize (Hkept es eq_refl).
    destruct (os_OpenFile _ _) as [x1 [f | e1]]; [| by intros [= <- _ _]].
    destruct (encode_all _ _ _) as [w2 [e2 |]]; [by intros [= <- _ _] |].
    destruct (os_Remove _ _) as [x4 [e4 |]]; [by intros [= <- _ _] |].
    destruct (os_Rename _ _ _) as [x5 [e5 |]]; [by intros [= <- _ _] |].
    intros [= <- _ _]. simpl. lia.
Qed.


(** Every state the methods lead to has a result slot for every entry. *)
Lemma reachable_slots l w :
  reachable l w -> (length (entries l) <= length (results l))%nat.
Proof.
  induction 1 as [w | l w p _ IH | l w _ IH | fuel o l w l' w' e _ IH Hrun
                 | l w entry clear l' r _ IH Hres].
  - simpl. lia.
  - pose proof (open_lengths l w p). lia.
  - by rewrite close_lengths.
  - by eapply slots_kept.
  - unfold getEntryResult in Hres.
    destruct (_ && _); [| by injection Hres as <- _].
    destruct (index_at _ _) as [[result |] |]; [| by injection Hres as <- _ | done].
    injection Hres as <- _. simpl.
    destruct clear; [rewrite length_insert |]; done.
Qed.


End Facts.

(** * Further properties of the log *)

Lemma slice_from_inside {A : Type} (s : list A) (i : Z) :
  0 <= i <= Z.of_nat (length s) -> slice_from s i = Some (drop (Z.to_nat i) s).
Proof.
  intros Hi. rewrite <- (Z2Nat.id i) at 1 by lia. apply slice_from_drop. lia.
Qed.

Lemma slice_to_inside {A : Type} (s : list A) (j : Z) :
  0 <= j <= Z.of_nat (length s) -> slice_to s j = Some (take (Z.to_nat j) s).
Proof.
  intros Hj. rewrite <- (Z2Nat.id j) at 1 by lia. apply slice_to_take. lia.
Qed.

Section Coverage.

Context {Command Value ExtErr Handle Ext : Type}.
Context {collab : @Collaborators Command Value ExtErr Handle Ext}.

Local Abbreviation Log := (@Log Command Value ExtErr Handle).
Local Abbreviation LogEntry := (@LogEntry Command).
Local Abbreviation World := (@World Command Value ExtErr Ext).
Local Abbreviation error := (@error ExtErr).

Implicit Types (l : Log) (w : World) (entry : LogEntry) (es : list LogEntry).

(** ** Appending a batch *)

Lemma appendEntry_follows l entry (h : Handle) :
  file l = Some h ->
  if follows (last (entries l)) entry
  then appendEntry l entry = (appended l entry, None)
  else exists e, appendEntry l entry = (l, Some e).
Proof.
  intros Hf. unfold appendEntry, appended, follows. rewrite Hf.
  destruct (last (entries l)) as [p |]; [| done].
  destruct (Term entry <? Term p); simpl; [eauto |].
  destruct ((Term entry =? Term p) && (Index entry <=? Index p)); simpl; eauto.
Qed.

(** [appendEntries] keeps a prefix of the batch and nothing else: the
    first [k] entries are behind the old ones, each with a nil result
    slot, and no other field moves.  Without an error the prefix is the
    whole batch; with one it stops short of it. *)
Theorem appendEntries_keeps_prefix es :
  forall l,
    exists k : nat,
      (k <= length es)%nat /\
      entries (appendEntries l es).1 = entries l ++ take k es /\
      results (appendEntries l es).1 = results l ++ replicate k None /\
      commitIndex (appendEntries l es).1 = commitIndex l /\
      startIndex (appendEntries l es).1 = startIndex l /\
      startTerm (appendEntries l es).1 = startTerm l /\
      file (appendEntries l es).1 = file l /\
      path (appendEntries l es).1 = path l /\
      ((appendEntries l es).2 = None -> k = length es) /\
      (forall e, (appendEntries l es).2 = Some e -> (k < length es)%nat).
Proof.
  induction es as [| e es IH]; intros l; simpl.
  - exists O. simpl. rewrite !app_nil_r. repeat split; try done; lia.
  - destruct (appendEntry_cases l e) as [[err ->] | ->]; simpl.
    + exists O. simpl. rewrite !app_nil_r. repeat split; try done; lia.
    + destruct (IH (appended l e)) as (k & Hk & He & Hr & Hc & Hs & Ht & Hf & Hp & Hok & Hbad).
      exists (S k). simpl in *. rewrite He, Hr, <- !app_assoc. simpl.
      repeat split; try done; try lia.
      * intros Hnone. by rewrite (Hok Hnone).
      * intros e0 Hsome. specialize (Hbad e0 Hsome). lia.
Qed.

(** On an open log a batch goes in without error exactly when it is a
    chain: every entry may follow the one before it, the first one the
    last entry already in memory. *)
Theorem appendEntries_chain es :
  forall l (h : Handle),
    file l = Some h ->
    ((appendEntries l es).2 = None <-> chain (last (entries l)) es = true).
Proof.
  induction es as [| e es IH]; intros l h Hf; simpl; [done |].
  pose proof (appendEntry_follows l e h Hf) as Hstep.
  destruct (follows (last (entries l)) e); simpl.
  - rewrite Hstep. rewrite (IH (appended l e) h Hf). simpl. by rewrite last_snoc.
  - destruct Hstep as [err ->]. simpl. split; discriminate.
Qed.

(** After [close] nothing can be appended: a batch that is not empty is
    refused with the not-open error and the log stays as [close] left it. *)
Lemma appendEntries_after_close l w es :
  es <> [] ->
  appendEntries (close l w).1 es = ((close l w).1, Some ErrNotOpen).
Proof. intros Hne. destruct es as [| e es]; [done |]. reflexivity. Qed.

Lemma appendEntries_all_in es :
  forall l, (appendEntries l es).2 = None ->
            entries (appendEntries l es).1 = entries l ++ es.
Proof.
  induction es as [| e es IH]; intros l; simpl; [by rewrite app_nil_r |].
  destruct (appendEntry_cases l e) as [[err ->] | ->]; simpl; [done |].
  intros Hok. rewrite (IH _ Hok). simpl. by rewrite <- app_assoc.
Qed.

(** After a batch went in without error, the log ends with the last entry
    of the batch: [currentIndex], [currentTerm], [lastInfo] and
    [nextIndex] are read off that entry. *)
Theorem appendEntries_tip l es (e : LogEntry) :
  (appendEntries l es).2 = None -> last es = Some e ->
  currentIndex (appendEntries l es).1 = Index e /\
  currentTerm (appendEntries l es).1 = Term e /\
  lastInfo (appendEntries l es).1 = (Index e, Term e) /\
  nextIndex (appendEntries l es).1 = u64 (Index e + 1).
Proof.
  intros Hok Hlast.
  pose proof (appendEntries_all_in es l Hok) as He.
  assert (Htip : last (entries (appendEntries l es).1) = Some e).
  { rewrite He, last_app, Hlast. done. }
  unfold nextIndex, currentIndex, currentTerm, lastInfo. by rewrite Htip.
Qed.

(** ** Creating the next entry *)

Lemma nextIndex_steady l :
  steady l -> nextIndex l = startIndex l + len l + 1.
Proof.
  intros [Hs Hw Hn Hb Hr]. unfold nextIndex, currentIndex.
  pose proof (internalCurrentIndex_numbered l Hn) as Hcur.
  unfold internalCurrentIndex in Hcur. rewrite Hcur.
  apply u64_small. unfold is_u64, len in *. lia.
Qed.

(** On an open steady log, the entry [createEntry] makes for a term that
    is not below the term of the last in-memory entry is accepted by
    [appendEntry]; it carries the next index, and the log stays steady. *)
Theorem createEntry_appendable l (h : Handle) (term : Z) (command : option Command) :
  steady l -> file l = Some h ->
  startIndex l + len l + 1 < two64 - 1 ->
  (forall p, last (entries l) = Some p -> Term p <= term) ->
  Index (createEntry l term command) = startIndex l + len l + 1 /\
  appendEntry l (createEntry l term command) =
    (appended l (createEntry l term command), None) /\
  steady (appended l (createEntry l term command)).
Proof.
  intros Hst Hf Hmax Hterm.
  assert (Hidx : Index (createEntry l term command) = startIndex l + len l + 1).
  { unfold createEntry, newLogEntry. simpl. by apply nextIndex_steady. }
  split; [done |]. split; [| by apply steady_appended].
  pose proof (appendEntry_follows l (createEntry l term command) h Hf) as Hstep.
  assert (Hfol : follows (last (entries l)) (createEntry l term command) = true);
    [| by rewrite Hfol in Hstep].
  unfold follows. destruct (last (entries l)) as [p |] eqn:Hlast; [| done].
  specialize (Hterm p eq_refl).
  destruct Hst as [Hs Hw Hn Hb Hr].
  pose proof (internalCurrentIndex_numbered l Hn) as Hcur.
  unfold internalCurrentIndex in Hcur. rewrite Hlast in Hcur.
  rewrite Hidx. unfold createEntry, newLogEntry. simpl.
  assert ((term <? Term p) = false) as -> by (apply Z.ltb_ge; lia).
  assert ((startIndex l + len l + 1 <=? Index p) = false) as ->
    by (apply Z.leb_gt; lia).
  by rewrite andb_false_r.
Qed.

(** ** Truncation that goes through *)

Lemma with_entries_same l : with_entries l (entries l) = l.
Proof. by destruct l. Qed.

Lemma truncate_inside l (index term : Z) :
  steady l ->
  commitIndex l <= index <= startIndex l + len l ->
  (startIndex l < index ->
   exists e, entries l !! Z.to_nat (index - startIndex l - 1) = Some e /\ Term e = term) ->
  truncate l index term =
    Ret (with_entries l (take (Z.to_nat (index - startIndex l)) (entries l)), None).
Proof.
  intros Hst Hin Hterm. pose proof Hst as [Hs Hw Hn Hb Hr].
  unfold commit_window, len in *. unfold truncate.
  assert ((index <? commitIndex l) = false) as -> by (apply Z.ltb_ge; lia).
  rewrite (u64_small (startIndex l + len l)) by (unfold is_u64, len; lia).
  unfold len.
  assert ((index >? startIndex l + Z.of_nat (length (entries l))) = false) as ->
    by (rewrite Z.gtb_ltb; apply Z.ltb_ge; lia).
  destruct (Z.eqb_spec index (startIndex l)) as [-> | Hne].
  - by rewrite Z.sub_diag.
  - destruct Hterm as (e & He & Hte); [lia |].
    pose proof (lookup_lt_Some _ _ _ He) as Hlt.
    rewrite u64_small by (unfold is_u64; lia).
    rewrite index_at_inside, He by lia.
    assert ((Term e =? term) = true) as -> by (apply Z.eqb_eq; lia).
    rewrite andb_false_r.
    destruct (Z.ltb_spec index (startIndex l + Z.of_nat (length (entries l)))) as [Hcut | Hall].
    + rewrite u64_small by (unfold is_u64; lia).
      by rewrite slice_to_inside by lia.
    + rewrite firstn_all2 by lia. by rewrite with_entries_same.
Qed.

(** On a steady log, [truncate(index, term)] with [index] from the commit
    index up to the end of the window, and [term] the term of the entry
    at [index], returns no error and keeps exactly the entries up to
    [index]; the log then ends at [index].  At the baseline itself the
    term is not looked at. *)
Theorem truncate_cuts l (index term : Z) :
  steady l ->
  commitIndex l <= index <= startIndex l + len l ->
  (startIndex l < index ->
   exists e, entries l !! Z.to_nat (index - startIndex l - 1) = Some e /\ Term e = term) ->
  truncate l index term =
    Ret (with_entries l (take (Z.to_nat (index - startIndex l)) (entries l)), None) /\
  currentIndex (with_entries l (take (Z.to_nat (index - startIndex l)) (entries l))) = index.
Proof.
  intros Hst Hin Hterm. split; [by apply truncate_inside |].
  destruct Hst as [Hs Hw Hn Hb Hr]. unfold commit_window, len in *.
  unfold currentIndex. simpl.
  pose proof (consecutive_take _ _ (Z.to_nat (index - startIndex l)) Hn) as Hnum.
  apply last_index_numbered in Hnum. unfold last_index in Hnum.
  rewrite length_take_le in Hnum by lia.
  destruct (last (take _ (entries l))) as [e |] eqn:Hlast.
  - lia.
  - apply last_None in Hlast. apply (f_equal length) in Hlast.
    rewrite length_take_le in Hlast by lia. simpl in Hlast. lia.
Qed.

(** ** Entries after an index *)

Lemma consecutive_Forall (es : list LogEntry) :
  forall i : Z, consecutive_from i es = true -> Forall (fun e => i <= Index e) es.
Proof.
  induction es as [| e es IH]; intros i Hc; [constructor |].
  simpl in Hc. apply andb_prop in Hc as [Hhd Htl]. apply Z.eqb_eq in Hhd.
  constructor; [lia |].
  eapply Forall_impl; [apply (IH (i + 1) Htl) |]. simpl. intros e' He'. lia.
Qed.

Lemma getEntriesAfter_inside l (index : Z) :
  steady l -> startIndex l <= index <= startIndex l + len l ->
  getEntriesAfter l index =
    Ret (Some (drop (Z.to_nat (index - startIndex l)) (entries l)),
         if index =? startIndex l then startTerm l
         else match entries l !! Z.to_nat (index - startIndex l - 1) with
              | Some e => Term e
              | None => 0
              end).
Proof.
  intros [Hs Hw Hn Hb Hr] Hin. unfold commit_window, len in *.
  unfold getEntriesAfter.
  assert ((index <? startIndex l) = false) as -> by (apply Z.ltb_ge; lia).
  rewrite u64_small by (unfold is_u64, len; lia). unfold len.
  assert ((index >? Z.of_nat (length (entries l)) + startIndex l) = false) as ->
    by (rewrite Z.gtb_ltb; apply Z.ltb_ge; lia).
  destruct (Z.eqb_spec index (startIndex l)) as [-> | Hne].
  - by rewrite Z.sub_diag.
  - rewrite !u64_small by (unfold is_u64; lia).
    rewrite (index_at_inside _ (Z.of_nat (length (entries l)) - 1)) by lia.
    destruct (entries l !! Z.to_nat (Z.of_nat (length (entries l)) - 1)) as [tip |] eqn:Htip;
      [| apply lookup_ge_None in Htip; lia].
    rewrite slice_from_inside by lia.
    rewrite index_at_inside by lia.
    replace (index - 1 - startIndex l) with (index - startIndex l - 1) by lia.
    destruct (entries l !! Z.to_nat (index - startIndex l - 1)) as [e |] eqn:He; [done |].
    apply lookup_ge_None in He. lia.
Qed.

(** On a steady log and for [index] from the baseline to the end of the
    window, [getEntriesAfter(index)] returns the in-memory entries behind
    position [index], which are exactly those with a greater index,
    together with the term at [index]: the baseline term at the baseline,
    else the term of the entry stored for [index]. *)
Theorem getEntriesAfter_window l (index : Z) :
  steady l -> startIndex l <= index <= startIndex l + len l ->
  exists (es : list LogEntry) (t : Z),
    getEntriesAfter l index = Ret (Some es, t) /\
    take (Z.to_nat (index - startIndex l)) (entries l) ++ es = entries l /\
    Forall (fun e => index < Index e) es /\
    Forall (fun e => Index e <= index) (take (Z.to_nat (index - startIndex l)) (entries l)) /\
    (index = startIndex l -> t = startTerm l) /\
    (startIndex l < index ->
     exists e, entries l !! Z.to_nat (index - startIndex l - 1) = Some e /\
               Index e = index /\ t = Term e).
Proof.
  intros Hst Hin. rewrite (getEntriesAfter_inside l index Hst Hin).
  destruct Hst as [Hs Hw Hn Hb Hr]. unfold commit_window, len in *.
  eexists _, _. split; [done |]. split; [apply take_drop |].
  split; [| split; [| split]].
  - assert (Hle : (Z.to_nat (index - startIndex l) <= length (entries l))%nat) by lia.
    pose proof (consecutive_drop (entries l) _ _ Hle Hn) as Hd.
    apply consecutive_Forall in Hd.
    eapply Forall_impl; [exact Hd |]. simpl. intros e He. lia.
  - apply Forall_lookup. intros k e Hk.
    apply lookup_take_Some in Hk as [Hk Hlt].
    rewrite (consecutive_lookup _ _ _ _ Hn Hk). lia.
  - intros ->. by rewrite Z.eqb_refl.
  - intros Hpos.
    assert ((index =? startIndex l) = false) as -> by (apply Z.eqb_neq; lia).
    destruct (entries l !! Z.to_nat (index - startIndex l - 1)) as [e |] eqn:He;
      [| apply lookup_ge_None in He; lia].
    exists e. split; [done |]. split; [| done].
    rewrite (consecutive_lookup _ _ _ _ Hn He). lia.
Qed.

(** Outside the window [getEntriesAfter] has no entries to give: below
    the baseline it returns a nil slice and term 0, beyond the end it
    panics. *)
Theorem getEntriesAfter_out_of_window l (index : Z) :
  is_u64 (startIndex l + len l) ->
  (index < startIndex l -> getEntriesAfter l index = Ret (None, 0)) /\
  (startIndex l + len l < index -> 0 <= startIndex l ->
   getEntriesAfter l index = Panic).
Proof.
  intros Hu. unfold getEntriesAfter. split.
  - intros Hlow. by assert ((index <? startIndex l) = true) as -> by (apply Z.ltb_lt; lia).
  - intros Hhigh Hs. unfold len in *.
    assert ((index <? startIndex l) = false) as -> by (apply Z.ltb_ge; lia).
    replace (Z.of_nat (length (entries l)) + startIndex l)
      with (startIndex l + Z.of_nat (length (entries l))) by lia.
    rewrite (u64_small _ Hu).
    by assert ((index >? startIndex l + Z.of_nat (length (entries l))) = true) as ->
      by (rewrite Z.gtb_ltb; apply Z.ltb_lt; lia).
Qed.

(** [truncate] and [getEntriesAfter] split the log at the same place: on
    a steady log, what a successful [truncate(index, term)] keeps,
    followed by what [getEntriesAfter(index)] returned before, is the
    log as it was; and inside the window the term reported is [term]. *)
Theorem truncate_splits l l' (index term : Z) :
  steady l -> truncate l index term = Ret (l', None) ->
  exists (es : list LogEntry) (t : Z),
    getEntriesAfter l index = Ret (Some es, t) /\
    entries l' ++ es = entries l /\
    (startIndex l < index -> t = term).
Proof.
  intros Hst Htr. pose proof Hst as [Hs Hw Hn Hb Hr].
  unfold commit_window, len in *.
  (* what the success of truncate tells *)
  assert (Hin : startIndex l <= index <= startIndex l + len l /\
                entries l' = take (Z.to_nat (index - startIndex l)) (entries l) /\
                (startIndex l < index ->
                 exists e, entries l !! Z.to_nat (index - startIndex l - 1) = Some e /\
                           Term e = term)).
  { unfold truncate, len in *.
    destruct (Z.ltb_spec index (commitIndex l)) as [Hc | Hc]; [done |].
    rewrite (u64_small (startIndex l + _)) in Htr by (unfold is_u64; lia).
    destruct (index >? _) eqn:Hend; [done |].
    rewrite Z.gtb_ltb in Hend. apply Z.ltb_ge in Hend.
    destruct (Z.eqb_spec index (startIndex l)) as [-> | Hne].
    - injection Htr as <-. rewrite Z.sub_diag. simpl. split; [lia |]. split; [done | lia].
    - rewrite u64_small in Htr by (unfold is_u64; lia).
      rewrite index_at_inside in Htr by lia.
      destruct (entries l !! Z.to_nat (index - startIndex l - 1)) as [e |] eqn:He; [| done].
      pose proof (lookup_lt_Some _ _ _ He) as Hlt.
      assert ((0 <? Z.of_nat (length (entries l))) = true) as Hpos
        by (apply Z.ltb_lt; lia).
      rewrite Hpos in Htr.
      destruct (Z.eqb_spec (Term e) term) as [Hte | Hte]; [| done].
      simpl in Htr.
      split; [lia |]. split; [| by eauto].
      destruct (Z.ltb_spec index (startIndex l + Z.of_nat (length (entries l)))) as [Hcut | Hall].
      + rewrite u64_small in Htr by (unfold is_u64; lia).
        rewrite slice_to_inside in Htr by lia. by injection Htr as <-.
      + injection Htr as <-. by rewrite firstn_all2 by lia. }
  destruct Hin as (Hin & -> & Hterm).
  rewrite (getEntriesAfter_inside l index Hst Hin).
  eexists _, _. split; [done |]. split; [apply take_drop |].
  intros Hpos. destruct (Hterm Hpos) as (e & -> & <-).
  by assert ((index =? startIndex l) = false) as -> by (apply Z.eqb_neq; lia).
Qed.


(** ** Looking an entry up before truncating *)

(** Without a baseline [containsEntry] never panics and answers true
    exactly for an index of the window whose entry has the given term. *)
Theorem containsEntry_no_baseline l (index term : Z) :
  startIndex l = 0 -> is_u64 (len l) ->
  exists b : bool,
    containsEntry l index term = Ret b /\
    (b = true <->
     0 < index <= len l /\
     exists e, entries l !! Z.to_nat (index - 1) = Some e /\ Term e = term).
Proof.
  intros Hs Hu. unfold containsEntry.
  destruct (Z.le_gt_cases index 0) as [Hlow | Hpos];
    [| destruct (Z.le_gt_cases index (len l)) as [Hin | Hhigh]].
  - rewrite getEntry_outside by (rewrite ?Hs; (done || lia)).
    exists false. split; [done |]. split; [done | lia].
  - destruct (getEntry_no_baseline l index Hs Hu ltac:(lia)) as (e & He & ->).
    rewrite Hs in He. replace (index - 0 - 1) with (index - 1) in He by lia.
    exists (Term e =? term). split; [done |]. rewrite Z.eqb_eq. split.
    + intros Hte. split; [lia |]. eauto.
    + intros [_ (e' & He' & Hte)]. congruence.
  - rewrite getEntry_outside by (rewrite ?Hs; (done || lia)).
    exists false. split; [done |]. split; [done | lia].
Qed.

(** On a steady log without a baseline, an index at or above the commit
    index for which [containsEntry(index, term)] says true can be
    truncated to: [truncate(index, term)] returns no error and keeps the
    first [index] entries. *)
Theorem containsEntry_then_truncate l (index term : Z) :
  steady l -> startIndex l = 0 -> commitIndex l <= index ->
  containsEntry l index term = Ret true ->
  truncate l index term = Ret (with_entries l (take (Z.to_nat index) (entries l)), None).
Proof.
  intros Hst Hs Hc Hcont. pose proof Hst as [_ _ _ Hb _].
  assert (Hu : is_u64 (len l)) by (unfold is_u64, len in *; lia).
  unfold containsEntry in Hcont.
  destruct (Z.le_gt_cases index 0) as [Hlow | Hpos];
    [| destruct (Z.le_gt_cases index (len l)) as [Hin | Hhigh]].
  - by rewrite getEntry_outside in Hcont by (rewrite ?Hs; (done || lia)).
  - destruct (getEntry_no_baseline l index Hs Hu ltac:(lia)) as (e & He & Hget).
    rewrite Hget in Hcont. injection Hcont as Hte. apply Z.eqb_eq in Hte.
    pose proof (truncate_inside l index term Hst) as Htr.
    rewrite Hs, Z.sub_0_r in Htr. apply Htr; [lia |].
    intros _. exists e. rewrite Hs, Z.sub_0_r in He. by split.
  - by rewrite getEntry_outside in Hcont by (rewrite ?Hs; (done || lia)).
Qed.

(** ** Commit information *)

(** On a steady log [commitInfo] does not panic and reports the commit
    index itself, which is never beyond the index [lastInfo] reports;
    above the baseline the term is that of the committed entry. *)
Theorem commitInfo_steady l :
  steady l ->
  exists t : Z,
    commitInfo l = Ret (commitIndex l, t) /\
    commitIndex l <= (lastInfo l).1 /\
    (startIndex l < commitIndex l ->
     exists e, entries l !! Z.to_nat (commitIndex l - startIndex l - 1) = Some e /\
               t = Term e).
Proof.
  intros [Hs Hw Hn Hb Hr]. unfold commit_window in Hw.
  assert (Hlast : (lastInfo l).1 = startIndex l + len l).
  { pose proof (internalCurrentIndex_numbered l Hn) as Hcur.
    unfold internalCurrentIndex in Hcur. unfold lastInfo.
    by destruct (last (entries l)). }
  rewrite Hlast. unfold commitInfo, len in *.
  destruct (Z.eqb_spec (commitIndex l) 0) as [H0 | H0].
  - exists 0. rewrite H0. split; [done |]. split; lia.
  - destruct (Z.eqb_spec (commitIndex l) (startIndex l)) as [Heq | Hne].
    + exists (startTerm l). rewrite Heq. split; [done |]. split; lia.
    + rewrite u64_small by (unfold is_u64; lia).
      rewrite index_at_inside by lia.
      replace (commitIndex l - 1 - startIndex l) with (commitIndex l - startIndex l - 1) by lia.
      destruct (entries l !! Z.to_nat (commitIndex l - startIndex l - 1)) as [e |] eqn:He;
        [| apply lookup_ge_None in He; lia].
      exists (Term e). rewrite (consecutive_lookup _ _ _ _ Hn He).
      split; [f_equal; f_equal; lia |]. split; [lia | eauto].
Qed.

(** After [close] the commit index is still there but the entries are
    gone: unless the commit index is 0 or the baseline, [commitInfo]
    panics. *)
Theorem commitInfo_after_close l w :
  commitIndex l <> 0 -> commitIndex l <> startIndex l ->
  commitInfo (close l w).1 = Panic.
Proof.
  intros H0 Hs. unfold commitInfo. simpl.
  destruct (Z.eqb_spec (commitIndex l) 0); [done |].
  destruct (Z.eqb_spec (commitIndex l) (startIndex l)); [done |].
  rewrite index_at_beyond; [done |]. simpl.
  apply Z.mod_pos_bound. reflexivity.
Qed.


(** ** Where the commit index goes *)

Lemma pending_numbered l (index : Z) (n : nat) :
  steady l ->
  consecutive_from (commitIndex l + 1) (take n (pending l index)) = true.
Proof.
  intros [Hs Hw Hn Hb Hr]. unfold commit_window, len in *.
  apply consecutive_take. unfold pending. apply consecutive_take.
  replace (commitIndex l + 1)
    with (startIndex l + 1 + Z.of_nat (Z.to_nat (commitIndex l - startIndex l))) by lia.
  apply consecutive_drop; [lia | done].
Qed.

Lemma outside_run_short (f : option Handle) es (x : Ext) :
  (length (outside_run f es x).1.1 <= length es)%nat.
Proof.
  pose proof (outside_run_length f es x) as Hlen.
  destruct (outside_run f es x) as [[rs x'] [[e er] |]]; simpl.
  - apply lookup_lt_Some in Hlen. lia.
  - lia.
Qed.

(** On a steady log [setCommitIndex] never takes the commit index back
    and never past [index], it leaves the entries and the baseline alone,
    and when it returns no error for an [index] from the commit index to
    the end of the window, the commit index is [index]. *)
Theorem setCommitIndex_monotone fuel l w (index : Z) l' w' (e : option error) :
  steady l -> (Z.to_nat (index - commitIndex l) < fuel)%nat ->
  setCommitIndex fuel l w index = Ret (l', w', e) ->
  commitIndex l <= commitIndex l' /\
  (commitIndex l <= index -> commitIndex l' <= index) /\
  entries l' = entries l /\ startIndex l' = startIndex l /\
  startTerm l' = startTerm l /\
  (e = None -> commitIndex l <= index <= startIndex l + len l ->
   commitIndex l' = index).
Proof.
  intros Hst Hfuel Hrun. pose proof Hst as [Hs Hw Hn Hb Hr].
  unfold commit_window in Hw.
  destruct (Z.ltb_spec (startIndex l + len l) index) as [Hout | Hin].
  { unfold setCommitIndex in Hrun.
    rewrite u64_small in Hrun by (unfold is_u64, len in *; lia).
    assert ((index >? startIndex l + len l) = true) as Hgt
      by (rewrite Z.gtb_ltb; apply Z.ltb_lt; lia).
    rewrite Hgt in Hrun. injection Hrun as <- _ <-.
    repeat split; try done; lia. }
  destruct (Z.ltb_spec index (commitIndex l)) as [Hback | Hfwd].
  { unfold setCommitIndex in Hrun.
    rewrite u64_small in Hrun by (unfold is_u64, len in *; lia).
    assert ((index >? startIndex l + len l) = false) as Hgt
      by (rewrite Z.gtb_ltb; apply Z.ltb_ge; lia).
    assert ((index <? commitIndex l) = true) as Hlt by (apply Z.ltb_lt; lia).
    rewrite Hgt, Hlt in Hrun. injection Hrun as <- _ <-.
    repeat split; try done; lia. }
  rewrite setCommitIndex_run in Hrun by (done || lia).
  pose proof (outside_run_length (file l) (pending l index) (ext w)) as Hlen.
  pose proof (outside_run_short (file l) (pending l index) (ext w)) as Hshort.
  pose proof (pending_length l index ltac:(lia) ltac:(lia)) as Hpl.
  destruct (outside_run (file l) (pending l index) (ext w)) as [[rs x'] bad].
  simpl in Hrun, Hshort. injection Hrun as <- _ <-.
  pose proof (pending_numbered l index (length rs) Hst) as Hnum.
  apply last_index_numbered in Hnum. rewrite length_take_le in Hnum by done.
  simpl. rewrite Hnum.
  repeat split; try lia.
  intros Hok _. destruct bad as [[b eb] |]; [done |]. lia.
Qed.

(** ** Results of committed entries *)

Lemma overwrite_lookup {A : Type} (rs : list A) (off : nat) (new : list A) (k : nat) :
  (off <= length rs)%nat -> (k < length new)%nat ->
  overwrite rs off new !! (off + k)%nat = new !! k.
Proof.
  intros Hoff Hk. unfold overwrite.
  rewrite lookup_app_r by (rewrite length_take; lia).
  rewrite length_take_le by lia.
  replace (off + k - off)%nat with k by lia.
  by rewrite lookup_app_l.
Qed.

(** Without a baseline, what [setCommitIndex] stored is what
    [getEntryResult] hands out: for every entry the call went through,
    [getEntryResult] returns the value and error [ApplyFunc] gave for it,
    and leaves the log alone. *)
Theorem getEntryResult_after_commit fuel l w (index : Z) l' w' (e0 : option error) :
  steady l -> startIndex l = 0 ->
  commitIndex l <= index <= len l ->
  (Z.to_nat (index - commitIndex l) < fuel)%nat ->
  setCommitIndex fuel l w index = Ret (l', w', e0) ->
  forall (k : nat) (e : LogEntry) (r : logResult),
    pending l index !! k = Some e ->
    (outside_run (file l) (pending l index) (ext w)).1.1 !! k = Some r ->
    getEntryResult l' e false = Ret (l', (returnValue r, err r)).
Proof.
  intros Hst Hs0 Hin Hfuel Hrun k e r Hk Hr.
  pose proof Hst as [Hs Hw Hn Hb Hslots]. unfold commit_window in Hw.
  rewrite setCommitIndex_run in Hrun by (done || lia).
  pose proof (outside_run_short (file l) (pending l index) (ext w)) as Hshort.
  pose proof (pending_length l index ltac:(lia) ltac:(lia)) as Hpl.
  destruct (outside_run (file l) (pending l index) (ext w)) as [[rs x'] bad].
  simpl in Hrun, Hshort, Hr. injection Hrun as <- _ _.
  pose proof (lookup_lt_Some _ _ _ Hr) as Hklt.
  pose proof (pending_numbered l index (length (pending l index)) Hst) as Hnum.
  rewrite firstn_all in Hnum.
  pose proof (consecutive_lookup _ _ _ _ Hnum Hk) as Hidx.
  unfold len in *. rewrite Hs0 in *.
  assert (Hlenr : length (overwrite (results l) (Z.to_nat (commitIndex l - 0)) (Some <$> rs))
                  = length (results l)).
  { apply overwrite_length. rewrite length_fmap. lia. }
  unfold getEntryResult. simpl. rewrite Hlenr.
  assert ((0 <? Index e) = true) as -> by (apply Z.ltb_lt; lia).
  assert ((Index e <=? Z.of_nat (length (results l))) = true) as ->
    by (apply Z.leb_le; lia).
  simpl. rewrite u64_small by (unfold is_u64; lia).
  rewrite index_at_inside by lia.
  replace (Z.to_nat (Index e - 1)) with (Z.to_nat (commitIndex l - 0) + k)%nat by lia.
  rewrite overwrite_lookup by (rewrite ?length_fmap; lia).
  rewrite list_lookup_fmap, Hr. simpl.
  by destruct l.
Qed.

(** Reading a result with [clear] drops the stored return value and keeps
    the error: the next read returns nil for the value and the same
    error.  Nothing else in the log changes. *)
Theorem getEntryResult_clear l l' (e : LogEntry) (v : option Value) (er : option ExtErr) :
  getEntryResult l e true = Ret (l', (v, er)) ->
  getEntryResult l' e false = Ret (l', (None, er)) /\
  entries l' = entries l /\ commitIndex l' = commitIndex l /\
  startIndex l' = startIndex l /\ file l' = file l /\
  length (results l') = length (results l).
Proof.
  unfold getEntryResult.
  destruct ((0 <? Index e) && (Index e <=? Z.of_nat (length (results l)))) eqn:Hrange.
  - destruct (index_at (results l) (u64 (Index e - 1))) as [[result |] |] eqn:Hat; [| | done].
    + intros [= <- _ <-]. simpl. rewrite length_insert, Hrange.
      unfold index_at in *. rewrite length_insert.
      destruct ((0 <=? _) && _) eqn:Hb; [| done].
      rewrite list_lookup_insert_eq by (by eapply lookup_lt_Some).
      done.
    + intros [= <- _ <-]. by rewrite Hrange, Hat.
  - intros [= <- _ <-]. by rewrite Hrange.
Qed.


(** ** What compaction touches *)

(** Whenever [compact] returns, the commit index, the results and the
    path are as before.  With an error the whole in-memory log is as
    before; without one the baseline is the pair given and the file
    handle is a fresh one. *)
Theorem compact_frame l w (index term : Z) l' w' (e : option error) :
  compact l w index term = Ret (l', w', e) ->
  commitIndex l' = commitIndex l /\ results l' = results l /\ path l' = path l /\
  (e <> None -> l' = l) /\
  (e = None -> startIndex l' = index /\ startTerm l' = term /\ is_Some (file l')).
Proof.
  unfold compact.
  destruct (if index >=? _ then _ else _) as [es |]; [| done].
  destruct (os_OpenFile _ _) as [x1 [f | e1]]; [| by intros [= <- _ <-]].
  destruct (encode_all _ _ _) as [w2 [e2 |]]; [by intros [= <- _ <-] |].
  destruct (os_Remove _ _) as [x4 [e4 |]]; [by intros [= <- _ <-] |].
  destruct (os_Rename _ _ _) as [x5 [e5 |]]; [by intros [= <- _ <-] |].
  intros [= <- _ <-]. simpl. repeat split; done.
Qed.

(** Compacting at or beyond the last index empties the in-memory log:
    after a successful call the log ends at the pair given, it counts as
    empty only for index 0, and [getEntry] finds nothing at any index. *)
Theorem compact_everything l w (index term : Z) l' w' :
  is_u64 index -> internalCurrentIndex l <= index ->
  compact l w index term = Ret (l', w', None) ->
  entries l' = [] /\ lastInfo l' = (index, term) /\
  currentIndex l' = index /\ currentTerm l' = term /\
  isEmpty l' = (index =? 0) /\
  forall i, getEntry l' i = Ret None.
Proof.
  intros Hu Hall. unfold compact.
  assert ((index >=? internalCurrentIndex l) = true) as ->
    by (rewrite Z.geb_leb; apply Z.leb_le; lia).
  destruct (os_OpenFile _ _) as [x1 [f | e1]]; [| done].
  destruct (encode_all _ _ _) as [w2 [e2 |]]; [done |].
  destruct (os_Remove _ _) as [x4 [e4 |]]; [done |].
  destruct (os_Rename _ _ _) as [x5 [e5 |]]; [done |].
  intros [= <- _]. repeat split.
  intros i. unfold getEntry, len. simpl. rewrite Z.add_0_r, (u64_small _ Hu).
  destruct (Z.leb_spec i index) as [Hle | Hgt]; [done |].
  by assert ((i >? index) = true) as -> by (rewrite Z.gtb_ltb; apply Z.ltb_lt; lia).
Qed.

(** ** Opening the log *)

Lemma open_append_fields (p : string) l w :
  entries (open_append p l w).1.1 = entries l /\
  results (open_append p l w).1.1 = results l /\
  commitIndex (open_append p l w).1.1 = commitIndex l /\
  startIndex (open_append p l w).1.1 = startIndex l /\
  startTerm (open_append p l w).1.1 = startTerm l /\
  events (open_append p l w).1.2 = events w /\
  ((open_append p l w).2 = None <-> is_Some (file (open_append p l w).1.1)).
Proof.
  unfold open_append. destruct (os_OpenFile p (ext w)) as [x [f | e]]; simpl.
  - repeat split; eauto.
  - repeat split; try done; by intros [? ?].
Qed.

Lemma apply_run_cons (e : LogEntry) es (x : Ext) :
  apply_run (e :: es) x =
    ((apply_run es (ApplyFunc (Cmd e) x).1).1,
     mkResult (ApplyFunc (Cmd e) x).2.1 (ApplyFunc (Cmd e) x).2.2
       :: (apply_run es (ApplyFunc (Cmd e) x).1).2).
Proof.
  simpl. destruct (ApplyFunc (Cmd e) x) as [x1 [rv er]]. simpl.
  by destruct (apply_run es x1).
Qed.

(** The log and the record of events once [open] has read the entries
    [good] and the state machine has answered [rs]. *)
Lemma open_loop_replay (p : string) (h : Handle) (stream : list decoded) :
  forall l w (n : Z),
    let good := decoded_prefix stream in
    let ar := apply_run good.*1 (ext w) in
    let l1 := {| file := file l; path := path l;
                 entries := entries l ++ good.*1;
                 results := results l ++ (Some <$> ar.2);
                 commitIndex := last_index good.*1 (commitIndex l);
                 startIndex := startIndex l; startTerm := startTerm l |} in
    let w1 := {| ext := ar.1;
                 events := events w ++ ((fun e => EvApply (Cmd e)) <$> good.*1) |} in
    open_loop p h stream l w n =
      if (length good <? length stream)%nat then
        match os_Truncate p (n + bytes_read good) (file_Close (Some h) ar.1) with
        | (x2, Some e) => (l1, set_ext w1 x2, Some (ErrUnableToRecover e))
        | (x2, None) => (l1, set_ext w1 x2, None)
        end
      else (l1, w1, None).
Proof.
  induction stream as [| [entry k | er] stream IH]; intros l w n; cbv zeta.
  - simpl. rewrite !app_nil_r. by destruct l, w.
  - cbn [decoded_prefix open_loop]. rewrite fmap_cons. cbn [fst].
    rewrite apply_run_cons.
    destruct (ApplyFunc (Cmd entry) (ext w)) as [x0 [rv er]].
    cbv zeta in IH. rewrite IH. cbn [fst snd entries results commitIndex startIndex
      startTerm file path ext events log_event length bytes_read foldr].
    rewrite last_index_cons, !fmap_cons, <- !app_assoc. cbn [app].
    unfold bytes_read.
    replace (n + k + foldr (fun en acc => en.2 + acc) 0 (decoded_prefix stream))
      with (n + (k + foldr (fun en acc => en.2 + acc) 0 (decoded_prefix stream))) by lia.
    reflexivity.
  - simpl. rewrite !app_nil_r, Z.add_0_r.
    destruct (os_Truncate p n _) as [x2 [e |]]; by destruct l, w.
Qed.

Lemma apply_run_length es (x : Ext) : length (apply_run es x).2 = length es.
Proof.
  revert x. induction es as [| e es IH]; intros x; [done |].
  rewrite apply_run_cons. simpl. by rewrite IH.
Qed.

Lemma open_loop_fields (p : string) (h : Handle) (stream : list decoded) l w (n : Z) :
  let good := (decoded_prefix stream).*1 in
  let out := open_loop p h stream l w n in
  entries out.1.1 = entries l ++ good /\
  results out.1.1 = results l ++ (Some <$> (apply_run good (ext w)).2) /\
  commitIndex out.1.1 = last_index good (commitIndex l) /\
  startIndex out.1.1 = startIndex l /\ startTerm out.1.1 = startTerm l /\
  file out.1.1 = file l /\ path out.1.1 = path l /\
  events out.1.2 = events w ++ ((fun e => EvApply (Cmd e)) <$> good).
Proof.
  cbv zeta. rewrite open_loop_replay. cbv zeta.
  destruct (_ <? _)%nat; [| done].
  by destruct (os_Truncate _ _ _) as [x2 [e |]].
Qed.

(** What [open] leaves in memory is what its loop left. *)
Lemma open_after_loop l w (p : string) (x : Ext) (h : Handle) (stream : list decoded) :
  os_Stat_exists p (ext w) = true ->
  os_Open p (ext w) = (x, inl (h, stream)) ->
  let out := open_loop p h stream l (set_ext w x) 0 in
  entries (open l w p).1.1 = entries out.1.1 /\
  results (open l w p).1.1 = results out.1.1 /\
  commitIndex (open l w p).1.1 = commitIndex out.1.1 /\
  startIndex (open l w p).1.1 = startIndex out.1.1 /\
  startTerm (open l w p).1.1 = startTerm out.1.1 /\
  events (open l w p).1.2 = events out.1.2.
Proof.
  intros Hstat Hopen. cbv zeta. unfold open. rewrite Hstat, Hopen.
  destruct (open_loop p h stream l (set_ext w x) 0) as [[l1 w1] [e |]]; [done |].
  match goal with |- context [open_append p l1 ?w2] =>
    pose proof (open_append_fields p l1 w2) as Happ;
    destruct (open_append p l1 w2) as [[l3 w3] r] end.
  simpl in *. by destruct Happ as (-> & -> & -> & -> & -> & -> & _).
Qed.

(** When the log file exists and can be read, [open] loads the entries
    decoded before the first decoding error behind those already in
    memory, applies each one once, in order, keeps what the state machine
    answered as its result, and leaves the commit index at the last entry
    loaded.  This is so whatever happens to the file afterwards. *)
Theorem open_replays l w (p : string) (x : Ext) (h : Handle) (stream : list decoded) :
  os_Stat_exists p (ext w) = true ->
  os_Open p (ext w) = (x, inl (h, stream)) ->
  let good := (decoded_prefix stream).*1 in
  entries (open l w p).1.1 = entries l ++ good /\
  results (open l w p).1.1 = results l ++ (Some <$> (apply_run good x).2) /\
  commitIndex (open l w p).1.1 = last_index good (commitIndex l) /\
  startIndex (open l w p).1.1 = startIndex l /\
  startTerm (open l w p).1.1 = startTerm l /\
  events (open l w p).1.2 = events w ++ ((fun e => EvApply (Cmd e)) <$> good).
Proof.
  intros Hstat Hopen good.
  destruct (open_after_loop l w p x h stream Hstat Hopen) as (-> & -> & -> & -> & -> & ->).
  by destruct (open_loop_fields p h stream l (set_ext w x) 0)
    as (He & Hr & Hc & Hs & Ht & _ & _ & Hev).
Qed.

(** After a decoding error [open] cuts the file back to the bytes of the
    entries read so far.  If that fails, [open] returns the
    unable-to-recover error without opening the file for appending: the
    file handle and the path of the log are as before.  If it works, the
    decoding error is not reported, and once the file opens for
    appending [open] returns no error with the new handle and the path. *)
Theorem open_recovery l w (p : string) (x : Ext) (h : Handle) (stream : list decoded) :
  os_Stat_exists p (ext w) = true ->
  os_Open p (ext w) = (x, inl (h, stream)) ->
  (length (decoded_prefix stream) < length stream)%nat ->
  let good := decoded_prefix stream in
  let cut := os_Truncate p (bytes_read good)
               (file_Close (Some h) (apply_run good.*1 x).1) in
  (forall e, cut.2 = Some e ->
     (open l w p).2 = Some (ErrUnableToRecover e) /\
     file (open l w p).1.1 = file l /\ path (open l w p).1.1 = path l) /\
  (cut.2 = None ->
   forall x3 f, os_OpenFile p (file_Close (Some h) cut.1) = (x3, inl f) ->
     (open l w p).2 = None /\
     file (open l w p).1.1 = Some f /\ path (open l w p).1.1 = p).
Proof.
  intros Hstat Hopen Herr good cut. unfold open. rewrite Hstat, Hopen.
  rewrite open_loop_replay. cbv zeta.
  apply Nat.ltb_lt in Herr. rewrite Herr. rewrite Z.add_0_l. simpl.
  fold good. fold cut. destruct cut as [x2 [e |]]; simpl; split.
  - by intros e' [= <-].
  - done.
  - done.
  - intros _ x3 f Hof. unfold open_append. simpl. by rewrite Hof.
Qed.

(** Opening a new log on a file whose entries are numbered from 1 gives a
    steady log in which everything read is committed and applied: the
    commit index is the number of entries and every result slot is
    filled. *)
Theorem open_fresh_committed w (p : string) (x : Ext) (h : Handle) (stream : list decoded) :
  os_Stat_exists p (ext w) = true ->
  os_Open p (ext w) = (x, inl (h, stream)) ->
  consecutive_from 1 (decoded_prefix stream).*1 = true ->
  Z.of_nat (length stream) < two64 - 1 ->
  let l' := (open newLog w p).1.1 in
  steady l' /\ commitIndex l' = len l' /\
  entries l' = (decoded_prefix stream).*1 /\
  length (results l') = length (entries l') /\
  Forall is_Some (results l').
Proof.
  intros Hstat Hopen Hnum Hmax l'.
  destruct (open_after_loop newLog w p x h stream Hstat Hopen) as (He & Hr & Hc & Hs & Ht & _).
  destruct (open_loop_fields p h stream newLog (set_ext w x) 0)
    as (He' & Hr' & Hc' & Hs' & Ht' & _).
  rewrite He' in He. rewrite Hr' in Hr. rewrite Hc' in Hc. rewrite Hs' in Hs.
  fold l' in He, Hr, Hc, Hs. simpl in He, Hr, Hc, Hs.
  assert (Hshort : (length (decoded_prefix stream).*1 <= length stream)%nat).
  { rewrite length_fmap. clear. induction stream as [| [e k | er] stream IH]; simpl; lia. }
  pose proof (last_index_numbered _ 0 Hnum) as Hlast. rewrite Hlast in Hc.
  assert (Hlen : length (results l') = length (entries l')).
  { by rewrite Hr, He, length_fmap, apply_run_length. }
  split; [| split; [| split; [| split]]].
  - split; unfold commit_window, len; rewrite ?Hs, ?Hc, ?He; simpl; try lia; try done.
    rewrite <- He, Hlen. lia.
  - unfold len. rewrite He. lia.
  - done.
  - done.
  - rewrite Hr. apply Forall_fmap, Forall_true. intros r. by eexists.
Qed.

Lemma open_loop_error (p : string) (h : Handle) (stream : list decoded) l w (n : Z) :
  file (open_loop p h stream l w n).1.1 = file l.
Proof. by destruct (open_loop_fields p h stream l w n) as (_ & _ & _ & _ & _ & Hf & _). Qed.

Lemma open_file_cases l w (p : string) :
  file l = None ->
  ((open l w p).2 = None /\ is_Some (file (open l w p).1.1)) \/
  ((open l w p).2 <> None /\ file (open l w p).1.1 = None).
Proof.
  intros Hf.
  assert (Happ : forall l0 w0,
            ((open_append p l0 w0).2 = None /\ is_Some (file (open_append p l0 w0).1.1)) \/
            ((open_append p l0 w0).2 <> None /\ file (open_append p l0 w0).1.1 = None)).
  { intros l0 w0. unfold open_append.
    destruct (os_OpenFile p (ext w0)) as [x [f | e]]; simpl; [left | right]; eauto. }
  unfold open. destruct (os_Stat_exists p (ext w)); [| apply Happ].
  destruct (os_Open p (ext w)) as [x [[h stream] | e]]; simpl.
  - pose proof (open_loop_error p h stream l (set_ext w x) 0) as Hfile.
    destruct (open_loop p h stream l (set_ext w x) 0) as [[l1 w1] [e |]]; simpl in *.
    + right. by rewrite Hfile, Hf.
    + match goal with |- context [open_append p l1 ?w2] =>
        pose proof (Happ l1 w2) as Hcase;
        destruct (open_append p l1 w2) as [[l3 w3] r] end.
      exact Hcase.
  - right. by rewrite Hf.
Qed.

(** On a log that is not open, [open] returns no error exactly when it
    leaves the log with a file handle: a failed [open] never leaves a log
    that accepts appends. *)
Theorem open_opened_iff l w (p : string) :
  file l = None ->
  ((open l w p).2 = None <-> is_Some (file (open l w p).1.1)).
Proof.
  intros Hf.
  destruct (open_file_cases l w p Hf) as [[Hok Hsome] | [Herr Hnone]].
  - by split.
  - split; [done |]. rewrite Hnone. by intros [? ?].
Qed.

(** ** A log that is not open *)

(** A log without a file handle takes no entries: after [close], and
    after an [open] that returned an error on a log that was not open, a
    batch that is not empty is refused with the not-open error and
    nothing changes. *)
Theorem not_open_refuses_appends l w (p : string) es :
  es <> [] ->
  appendEntries (close l w).1 es = ((close l w).1, Some ErrNotOpen) /\
  (file l = None -> (open l w p).2 <> None ->
   appendEntries (open l w p).1.1 es = ((open l w p).1.1, Some ErrNotOpen)).
Proof.
  intros Hne. split; [by apply appendEntries_after_close |].
  intros Hf Herr.
  assert (Hclosed : file (open l w p).1.1 = None).
  { by destruct (open_file_cases l w p Hf) as [[Hok _] | [_ Hnone]]. }
  destruct es as [| e es]; [done |].
  simpl. unfold appendEntry. by rewrite Hclosed.
Qed.

(** ** Compaction, then replication *)

(** After a successful [compact(index, term)] on a steady log, with
    [index] from the baseline to the commit index, asking for the entries
    after [index] gives all the entries left in memory and the term
    [term]; asking for the entries after a smaller index gives a nil
    slice. *)
Theorem compact_then_getEntriesAfter l w (index term : Z) l' w' :
  steady l -> startIndex l <= index <= commitIndex l ->
  compact l w index term = Ret (l', w', None) ->
  getEntriesAfter l' index = Ret (Some (entries l'), term) /\
  (forall i, i < index -> getEntriesAfter l' i = Ret (None, 0)).
Proof.
  intros Hst Hin Hrun.
  destruct (steady_compact l w index term Hst Hin) as (l1 & w1 & e1 & Hrun1 & Hst1).
  rewrite Hrun in Hrun1. injection Hrun1 as <- _ _.
  assert (Hbase : startIndex l' = index /\ startTerm l' = term).
  { destruct Hst as [Hs0 _ Hn0 Hb0 _].
    destruct (compact_keeps_later_entries l w index term l' w' Hn0) as (Hs & Ht & _);
      [lia | lia | done | done]. }
  destruct Hbase as [Hs Ht].
  destruct Hst1 as [Hs1 _ _ Hb1 _].
  unfold getEntriesAfter. rewrite Hs, Ht in *. split.
  - rewrite Z.ltb_irrefl.
    rewrite u64_small by (unfold is_u64, len in *; lia).
    assert ((index >? len l' + index) = false) as ->
      by (rewrite Z.gtb_ltb; apply Z.ltb_ge; unfold len; lia).
    by rewrite Z.eqb_refl.
  - intros i Hi. by assert ((i <? index) = true) as -> by (apply Z.ltb_lt; lia).
Qed.


End Coverage.

(** * The model at work on the instance *)

(** The states named in [Demo] are the ones the calls produce. *)
Lemma demo_states :
  compact Demo.three (Demo.world 8) 1 1 =
    Ret (Demo.compacted1,
         Demo.world_after [2; 3] 0 [EvEncode Demo.e2 true; EvEncode Demo.e3 true], None) /\
  compact Demo.three (Demo.world 8) 2 1 =
    Ret (Demo.compacted_ahead, Demo.world_after [3] 0 [EvEncode Demo.e3 true], None) /\
  (exists w, setCommitIndex 8 Demo.three (Demo.world 8) 2 = Ret (Demo.committed2, w, None) /\
     exists w', compact Demo.committed2 w 2 1 = Ret (Demo.committed2_compacted, w', None) /\
       exists w'', setCommitIndex 8 Demo.committed2_compacted w' 3 =
                     Ret (Demo.committed3, w'', None)) /\
  truncate Demo.three 1 1 = Ret (Demo.truncated1, None).
Proof.
  split; [reflexivity |]. split; [reflexivity |]. split; [| reflexivity].
  eexists. split; [reflexivity |].
  eexists. split; [reflexivity |].
  eexists. reflexivity.
Qed.

(** ** Entries behind a baseline *)

(** C1. After a compaction has put the baseline at 1, the window holds the
    indices 2 and 3, stored at offsets 0 and 1.  [getEntry(2)] hands out
    the entry stored at offset 1, which is entry 3, and [getEntry(3)]
    reads offset 2, past the end of the slice, and panics. *)
Theorem getEntry_ignores_baseline :
  startIndex Demo.compacted1 = 1 /\
  entries Demo.compacted1 !! Z.to_nat (2 - 1 - 1) = Some Demo.e2 /\
  getEntry Demo.compacted1 2 = Ret (Some Demo.e3) /\
  entries Demo.compacted1 !! Z.to_nat (3 - 1 - 1) = Some Demo.e3 /\
  getEntry Demo.compacted1 3 = Panic.
Proof. repeat split. Qed.

(** C2. [compact(1, 1)] on the log holding entries 1, 2, 3 succeeds and
    keeps entries 2 and 3 in memory.  Before the call [getEntry] finds
    both; afterwards it answers nil for index 1, as it should, but entry 3
    for index 2 and a panic for index 3. *)
Theorem compact_then_getEntry :
  (exists w', compact Demo.three (Demo.world 8) 1 1 = Ret (Demo.compacted1, w', None)) /\
  getEntry Demo.three 2 = Ret (Some Demo.e2) /\
  getEntry Demo.three 3 = Ret (Some Demo.e3) /\
  getEntry Demo.compacted1 1 = Ret None /\
  getEntry Demo.compacted1 2 = Ret (Some Demo.e3) /\
  getEntry Demo.compacted1 3 = Panic.
Proof.
  split; [eexists; reflexivity |]. repeat split.
Qed.

(** ** Result slots after truncation and compaction *)

(** C5. [truncate] and [compact] shorten [entries] and leave [results] as
    it is.  After [truncate(1, 1)] one entry faces three slots.  After
    committing entries 1 and 2 and compacting up to 2, the one entry left,
    entry 3, not yet applied, sits at offset 0 where the slot holds the
    outcome of entry 1.  Committing entry 3 then stores its outcome in slot
    0, and [getEntryResult] for entry 3, reading slot 2, still answers
    (nil, nil), while for entry 1 it answers with the outcome of entry 3. *)
Theorem results_left_behind :
  truncate Demo.three 1 1 = Ret (Demo.truncated1, None) /\
  length (entries Demo.truncated1) = 1%nat /\
  length (results Demo.truncated1) = 3%nat /\
  (exists w w',
     setCommitIndex 8 Demo.three (Demo.world 8) 2 = Ret (Demo.committed2, w, None) /\
     results_parallel Demo.committed2 /\
     compact Demo.committed2 w 2 1 = Ret (Demo.committed2_compacted, w', None) /\
     entries Demo.committed2_compacted = [Demo.e3] /\
     results Demo.committed2_compacted = [Some Demo.r10; Some Demo.r30; None] /\
     ~ results_parallel Demo.committed2_compacted /\
     exists w'',
       setCommitIndex 8 Demo.committed2_compacted w' 3 = Ret (Demo.committed3, w'', None) /\
       results Demo.committed3 = [Some Demo.r60; Some Demo.r30; None] /\
       getEntryResult Demo.committed3 Demo.e3 false = Ret (Demo.committed3, (None, None)) /\
       getEntryResult Demo.committed3 Demo.e1 false =
         Ret (Demo.committed3, (Some 60%nat, None))).
Proof.
  split; [reflexivity |]. split; [reflexivity |]. split; [reflexivity |].
  eexists _, _. split; [reflexivity |]. split.
  { split; [reflexivity |]. intros k e Hk.
    destruct k as [| [| [| k]]]; simpl in Hk; [| | | done];
      injection Hk as <-; simpl; (split; [intros H | intros H]);
      first [lia | eauto]. }
  split; [reflexivity |]. split; [reflexivity |]. split; [reflexivity |].
  split; [intros [Hlen _]; discriminate Hlen |].
  eexists. repeat split.
Qed.

(** ** Append *)

Lemma appendEntry_order_witness :
  (exists e, appendEntry Demo.three (mkEntry 3 2 None) = (Demo.three, Some e)) /\
  (exists e, appendEntry Demo.three (mkEntry 9 1 None) = (Demo.three, Some e)) /\
  appendEntry Demo.three (mkEntry 4 2 None) = (appended Demo.three (mkEntry 4 2 None), None).
Proof.
  split; [| split].
  - apply (appendEntry_order Demo.three (mkEntry 3 2 None) "raft.log" Demo.e3 eq_refl eq_refl).
    right. simpl. lia.
  - apply (appendEntry_order Demo.three (mkEntry 9 1 None) "raft.log" Demo.e3 eq_refl eq_refl).
    left. simpl. lia.
  - apply (appendEntry_order Demo.three (mkEntry 4 2 None) "raft.log" Demo.e3 eq_refl eq_refl).
    left. simpl. lia.
Defined.




(** ** Close *)

Lemma close_keeps_commit_and_baseline_witness :
  0 < startIndex Demo.compacted1 /\
  isEmpty (close Demo.compacted1 (Demo.world 8)).1 = false.
Proof.
  split; [simpl; lia |].
  pose proof (close_keeps_commit_and_baseline Demo.compacted1 (Demo.world 8)) as H.
  cbv zeta in H. destruct H as (_ & _ & _ & _ & _ & _ & _ & _ & _ & H).
  apply H. simpl. lia.
Defined.

(** ** Truncation *)

Lemma truncate_refuses_witness :
  (exists e, truncate Demo.committed2 1 1 = Ret (Demo.committed2, Some e)) /\
  (exists e, truncate Demo.three 2 7 = Ret (Demo.three, Some e)).
Proof.
  split.
  - apply (truncate_refuses Demo.committed2 1 1); concrete.
  - apply (truncate_refuses Demo.three 2 7) with (entry := Demo.e2); concrete.
Defined.

(** ** Commit *)

(** C4, as stated, fails once the commit index lies beyond the window:
    after [updateCommitIndex(5)] on the opened, empty log, the call
    [setCommitIndex(3)] is below the commit index and yet returns the
    out-of-range error. *)
Lemma setCommitIndex_backward_out_of_range :
  3 < commitIndex (updateCommitIndex Demo.opened 5) /\
  setCommitIndex 8 (updateCommitIndex Demo.opened 5) (Demo.world 8) 3 =
    Ret (updateCommitIndex Demo.opened 5, Demo.world 8, Some (ErrCommitOutOfRange 3 0)) /\
  setCommitIndex 8 (updateCommitIndex Demo.opened 5) (Demo.world 8) 3 <>
    Ret (updateCommitIndex Demo.opened 5, Demo.world 8, None).
Proof. split; [simpl; lia |]. split; [reflexivity | discriminate]. Qed.

Lemma setCommitIndex_backward_witness :
  setCommitIndex 8 Demo.committed2 (Demo.world 8) 1 =
    Ret (Demo.committed2, Demo.world 8, None).
Proof.
  apply (setCommitIndex_backward 8 Demo.committed2 (Demo.world 8) 1); concrete.
Defined.

(** C3, as stated, fails when the commit index is below the baseline: on
    the log compacted up to 2 before anything was committed, index 3 lies
    in [(0, 2 + 1]], and [setCommitIndex(3)] starts at position 1, which
    is no longer in memory, and panics.  It also fails at the largest
    uint64: there [i++] wraps around to 0, the loop goes on after the last
    entry and panics on the next offset. *)
Lemma setCommitIndex_below_baseline_panics :
  (commitIndex Demo.compacted_ahead < 3 <=
     startIndex Demo.compacted_ahead + len Demo.compacted_ahead /\
   setCommitIndex 8 Demo.compacted_ahead (Demo.world 8) 3 = Panic) /\
  ((exists l1 w1,
      compact Demo.opened (Demo.world 8) (two64 - 2) 1 = Ret (l1, w1, None) /\
      (appendEntry (updateCommitIndex l1 (two64 - 2)) Demo.e_last).1 = Demo.at_the_edge) /\
   commitIndex Demo.at_the_edge < two64 - 1 <=
     startIndex Demo.at_the_edge + len Demo.at_the_edge /\
   setCommitIndex 8 Demo.at_the_edge (Demo.world 8) (two64 - 1) = Panic).
Proof.
  split; [split; concrete |].
  split; [eexists _, _; split; reflexivity |].
  split; [vm_compute; split; [reflexivity | discriminate] | vm_compute; reflexivity].
Qed.

Lemma setCommitIndex_commits_witness :
  exists l' w',
    setCommitIndex 8 Demo.three (Demo.world 1) 3 =
      Ret (l', w', Some (ErrExternal "no space left on device")) /\
    commitIndex l' = 1 /\ results l' = [Some Demo.r10; None; None] /\
    events w' = entry_events 0 Demo.e1 Demo.r10 ++ [EvEncode Demo.e2 false].
Proof.
  pose proof (setCommitIndex_commits 8 Demo.three (Demo.world 1) 3) as H.
  destruct H as [H _].
  - concrete.
  - concrete.
  - concrete.
  - concrete.
  - concrete.
  - eexists _, _. split; [exact H |]. repeat split.
Defined.

(** ** The window invariant *)

(** C6, as stated, fails: [updateCommitIndex] sets whatever it is given,
    [compact] takes the baseline beyond the commit index when asked to,
    [setCommitIndex] takes the commit index from the entry's own [Index]
    field, which [appendEntry] does not tie to the entry's position,
    [close] empties the entries and keeps the commit index, [compact]
    below the baseline panics, [open] takes the commit index from the last
    entry it reads, and a batch that reaches the largest uint64 makes the
    loop of [setCommitIndex] run past the end. *)
Lemma commit_window_broken :
  (commit_window Demo.opened /\
   ~ commit_window (updateCommitIndex Demo.opened 5)) /\
  (commit_window Demo.three /\
   (exists w', compact Demo.three (Demo.world 8) 2 1 =
                 Ret (Demo.compacted_ahead, w', None)) /\
   ~ commit_window Demo.compacted_ahead) /\
  (commit_window Demo.gapped /\
   exists l' w', setCommitIndex 8 Demo.gapped (Demo.world 8) 2 = Ret (l', w', None) /\
                 commitIndex l' = 7 /\ ~ commit_window l') /\
  (commit_window Demo.committed2 /\
   ~ commit_window (close Demo.committed2 (Demo.world 8)).1) /\
  (commit_window Demo.committed2_compacted /\
   compact Demo.committed2_compacted (Demo.world 8) 1 1 = Panic) /\
  (commit_window (@newLog nat nat string string) /\
   entries Demo.reopened_after_compaction = [Demo.e3] /\
   commitIndex Demo.reopened_after_compaction = 3 /\
   startIndex Demo.reopened_after_compaction = 0 /\
   ~ commit_window Demo.reopened_after_compaction) /\
  (steady Demo.near_the_edge /\
   consecutive_from (startIndex Demo.near_the_edge + len Demo.near_the_edge + 1)
     [Demo.e_before_last; Demo.e_last] = true /\
   (appendEntries Demo.near_the_edge [Demo.e_before_last; Demo.e_last]).2 = None /\
   setCommitIndex 8 (appendEntries Demo.near_the_edge [Demo.e_before_last; Demo.e_last]).1
     (Demo.world 8) (two64 - 1) = Panic).
Proof.
  split. { split; concrete. }
  split. { split; [concrete |]. split; [eexists; reflexivity | concrete]. }
  split. { split; [concrete |]. eexists _, _. split; [reflexivity |]. split; concrete. }
  split. { split; concrete. }
  split. { split; concrete. }
  split.
  { split; [concrete |]. split; [reflexivity |]. split; [reflexivity |].
    split; [reflexivity |]. unfold commit_window, len. simpl. lia. }
  split.
  { constructor.
    - vm_compute. discriminate.
    - vm_compute. split; discriminate.
    - reflexivity.
    - vm_compute. reflexivity.
    - simpl. lia. }
  split; [vm_compute; reflexivity |].
  split; vm_compute; reflexivity.
Qed.

Lemma commit_window_preserved_witness :
  exists l' w',
    run_ops 8 Demo.session Demo.opened (Demo.world 8) = Ret (l', w') /\
    steady l' /\ commit_window l'.
Proof.
  apply (commit_window_preserved 8 Demo.session Demo.opened (Demo.world 8)).
  - split; concrete.
  - unfold Demo.session, ops_ok, op_ok. simpl. repeat split; concrete.
Defined.

(** * The further properties on the instance *)

Lemma demo_steady :
  steady Demo.opened /\ steady Demo.three /\ steady Demo.committed2.
Proof. repeat split; concrete. Qed.

Lemma appendEntries_chain_witness :
  (appendEntries Demo.opened [Demo.e1; Demo.e2; Demo.e3]).2 = None.
Proof.
  apply (proj2 (appendEntries_chain [Demo.e1; Demo.e2; Demo.e3] Demo.opened
                  "raft.log" eq_refl)).
  reflexivity.
Defined.

Lemma appendEntries_tip_witness :
  currentIndex Demo.three = 3 /\ currentTerm Demo.three = 2 /\
  lastInfo Demo.three = (3, 2).
Proof.
  destruct (appendEntries_tip Demo.opened [Demo.e1; Demo.e2; Demo.e3] Demo.e3
              eq_refl eq_refl) as (Hi & Ht & Hl & _).
  split; [exact Hi |]. split; [exact Ht | exact Hl].
Defined.

Lemma createEntry_appendable_witness :
  Index (createEntry Demo.three 2 (Some 40%nat)) = 4 /\
  appendEntry Demo.three (createEntry Demo.three 2 (Some 40%nat)) =
    (appended Demo.three (createEntry Demo.three 2 (Some 40%nat)), None).
Proof.
  destruct (createEntry_appendable Demo.three "raft.log" 2 (Some 40%nat))
    as (Hi & Ha & _).
  - apply demo_steady.
  - reflexivity.
  - concrete.
  - intros p [= <-]. concrete.
  - split; [exact Hi | exact Ha].
Defined.

Lemma truncate_cuts_witness :
  truncate Demo.three 2 1 = Ret (with_entries Demo.three [Demo.e1; Demo.e2], None) /\
  currentIndex (with_entries Demo.three [Demo.e1; Demo.e2]) = 2.
Proof.
  apply (truncate_cuts Demo.three 2 1).
  - apply demo_steady.
  - concrete.
  - intros _. exists Demo.e2. split; reflexivity.
Defined.

Lemma getEntriesAfter_window_witness :
  exists es t,
    getEntriesAfter Demo.three 1 = Ret (Some es, t) /\
    [Demo.e1] ++ es = entries Demo.three /\
    Forall (fun e => 1 < Index e) es.
Proof.
  destruct (getEntriesAfter_window Demo.three 1) as (es & t & Hget & Hsplit & Hafter & _).
  - apply demo_steady.
  - concrete.
  - exists es, t. split; [exact Hget |]. split; [exact Hsplit | exact Hafter].
Defined.

Lemma getEntriesAfter_out_of_window_witness :
  getEntriesAfter Demo.compacted1 0 = Ret (None, 0) /\
  getEntriesAfter Demo.compacted1 4 = Panic.
Proof.
  destruct (getEntriesAfter_out_of_window Demo.compacted1 0 ltac:(concrete)) as [Hlow _].
  destruct (getEntriesAfter_out_of_window Demo.compacted1 4 ltac:(concrete)) as [_ Hhigh].
  split; [apply Hlow; concrete | apply Hhigh; concrete].
Defined.

Lemma truncate_splits_witness :
  exists es t,
    getEntriesAfter Demo.three 1 = Ret (Some es, t) /\
    entries Demo.truncated1 ++ es = entries Demo.three /\ t = 1.
Proof.
  destruct (truncate_splits Demo.three Demo.truncated1 1 1) as (es & t & Hget & Hsplit & Ht).
  - apply demo_steady.
  - reflexivity.
  - exists es, t. split; [exact Hget |]. split; [exact Hsplit |]. apply Ht. concrete.
Defined.

Lemma containsEntry_no_baseline_witness :
  exists b : bool,
    containsEntry Demo.three 2 1 = Ret b /\
    (b = true <->
     0 < 2 <= len Demo.three /\
     exists e, entries Demo.three !! Z.to_nat (2 - 1) = Some e /\ Term e = 1).
Proof. apply (containsEntry_no_baseline Demo.three 2 1); concrete. Defined.

Lemma containsEntry_then_truncate_witness :
  truncate Demo.three 1 1 = Ret (with_entries Demo.three [Demo.e1], None).
Proof.
  apply (containsEntry_then_truncate Demo.three 1 1).
  - apply demo_steady.
  - reflexivity.
  - concrete.
  - reflexivity.
Defined.

Lemma commitInfo_steady_witness :
  exists t, commitInfo Demo.committed2 = Ret (2, t) /\ 2 <= (lastInfo Demo.committed2).1.
Proof.
  destruct (commitInfo_steady Demo.committed2) as (t & Hinfo & Hlast & _).
  - apply demo_steady.
  - exists t. split; [exact Hinfo | exact Hlast].
Defined.

Lemma commitInfo_after_close_witness :
  commitInfo (close Demo.committed2 (Demo.world 8)).1 = Panic.
Proof. apply (commitInfo_after_close Demo.committed2 (Demo.world 8)); concrete. Defined.

Lemma setCommitIndex_monotone_witness :
  commitIndex Demo.three <= commitIndex Demo.committed2 /\
  (commitIndex Demo.three <= 2 -> commitIndex Demo.committed2 <= 2).
Proof.
  refine (let H := setCommitIndex_monotone 8 Demo.three (Demo.world 8) 2
                     Demo.committed2 _ None _ _ _ in
          conj (proj1 H) (proj1 (proj2 H))).
  - apply demo_steady.
  - concrete.
  - reflexivity.
Defined.

Lemma getEntryResult_after_commit_witness :
  getEntryResult Demo.committed2 Demo.e2 false =
    Ret (Demo.committed2, (Some 30%nat, None)).
Proof.
  refine (getEntryResult_after_commit 8 Demo.three (Demo.world 8) 2
            Demo.committed2 _ None _ _ _ _ _ 1%nat Demo.e2 Demo.r30 _ _).
  - apply demo_steady.
  - reflexivity.
  - concrete.
  - concrete.
  - reflexivity.
  - reflexivity.
  - reflexivity.
Defined.

Lemma getEntryResult_clear_witness :
  getEntryResult Demo.cleared2 Demo.e2 false = Ret (Demo.cleared2, (None, None)) /\
  entries Demo.cleared2 = entries Demo.committed2.
Proof.
  refine (let H := getEntryResult_clear Demo.committed2 Demo.cleared2 Demo.e2
                     (Some 30%nat) None _ in
          conj (proj1 H) (proj1 (proj2 H))).
  reflexivity.
Defined.

Lemma compact_frame_witness :
  commitIndex Demo.compacted1 = commitIndex Demo.three /\
  results Demo.compacted1 = results Demo.three.
Proof.
  refine (let H := compact_frame Demo.three (Demo.world 8) 1 1 Demo.compacted1 _ None _ in
          conj (proj1 H) (proj1 (proj2 H))).
  reflexivity.
Defined.

Lemma compact_everything_witness :
  entries Demo.compacted_all = [] /\ lastInfo Demo.compacted_all = (3, 2).
Proof.
  refine (let H := compact_everything Demo.three (Demo.world 8) 3 2
                     Demo.compacted_all _ _ _ _ in
          conj (proj1 H) (proj1 (proj2 H))).
  - concrete.
  - concrete.
  - reflexivity.
Defined.

Lemma open_replays_witness :
  entries (open (collab := Demo.recovering) newLog (Demo.world 8) "raft.log").1.1 =
    [Demo.e1; Demo.e2] /\
  commitIndex (open (collab := Demo.recovering) newLog (Demo.world 8) "raft.log").1.1 = 2.
Proof.
  destruct (open_replays (collab := Demo.recovering) newLog (Demo.world 8) "raft.log"
              _ _ _ eq_refl eq_refl) as (He & _ & Hc & _).
  split; [exact He | exact Hc].
Defined.

Lemma open_recovery_witness :
  (open (collab := Demo.recovering) newLog (Demo.world 8) "raft.log").2 = None /\
  file (open (collab := Demo.recovering) newLog (Demo.world 8) "raft.log").1.1 =
    Some "raft.log".
Proof.
  destruct (open_recovery (collab := Demo.recovering) newLog (Demo.world 8) "raft.log"
              _ _ _ eq_refl eq_refl) as [_ Hcut].
  - simpl. lia.
  - destruct (Hcut eq_refl _ _ eq_refl) as (Herr & Hfile & _).
    split; [exact Herr | exact Hfile].
Defined.

Lemma open_fresh_committed_witness :
  steady (open (collab := Demo.recovering) newLog (Demo.world 8) "raft.log").1.1 /\
  commitIndex (open (collab := Demo.recovering) newLog (Demo.world 8) "raft.log").1.1 = 2.
Proof.
  destruct (open_fresh_committed (collab := Demo.recovering) (Demo.world 8) "raft.log"
              _ _ _ eq_refl eq_refl) as (Hst & Hc & _).
  - reflexivity.
  - concrete.
  - split; [exact Hst | exact Hc].
Defined.

Lemma open_opened_iff_witness : is_Some (file Demo.opened).
Proof.
  apply (proj1 (open_opened_iff newLog (Demo.world 8) "raft.log" eq_refl)).
  reflexivity.
Defined.

Lemma not_open_refuses_appends_witness :
  appendEntries (close Demo.three (Demo.world 8)).1 [Demo.e1; Demo.e2] =
    ((close Demo.three (Demo.world 8)).1, Some ErrNotOpen).
Proof.
  apply (not_open_refuses_appends Demo.three (Demo.world 8) "raft.log" [Demo.e1; Demo.e2]).
  discriminate.
Defined.

Lemma compact_then_getEntriesAfter_witness :
  getEntriesAfter Demo.committed2_compacted 2 = Ret (Some [Demo.e3], 1) /\
  getEntriesAfter Demo.committed2_compacted 1 = Ret (None, 0).
Proof.
  assert (H := compact_then_getEntriesAfter Demo.committed2 (Demo.world 8) 2 1
                 Demo.committed2_compacted
                 (Demo.world_after [3] 0 [EvEncode Demo.e3 true])).
  destruct H as [Hall Hnil].
  - apply demo_steady.
  - concrete.
  - reflexivity.
  - split; [exact Hall | apply Hnil; concrete].
Defined.
